(** * The RESP listening server of dice: internal/server/resp/server.go

    A shallow embedding of the server's accept loop, its bind/listen path,
    its identifier generator and its Run/shutdown protocol, as a labelled
    transition system over an explicit process state.  Goroutines are entries
    of a pool, each with a program counter naming a line of the source; the
    environment (system calls, the clock, the caller's cancellation, the
    workers' Start methods) supplies its answers through the labels. *)

From Stdlib Require Import Ascii.
From stdpp Require Import base numbers option list strings pretty gmap.

Local Open Scope Z_scope.

(** ** Machine integers *)

(** [uint64] arithmetic of [atomic.AddUint64]. *)
Definition uint64_modulus : Z := 2 ^ 64.
Definition wrap_uint64 (z : Z) : Z := z `mod` uint64_modulus.

(** [int64] arithmetic of [time.Now().UnixMilli() - startTime]. *)
Definition wrap_int64 (z : Z) : Z := (z + 2 ^ 63) `mod` uint64_modulus - 2 ^ 63.

(** ** Errors *)

(** Go [error] values that occur in server.go.  [Errorf msg e] is
    [fmt.Errorf(msg + ": %w", e)], which wraps [e]. *)
Inductive error : Type :=
  | Errno (n : Z)                      (* syscall.Errno *)
  | ErrInvalidIPAddress                (* errors.New("invalid IP address") *)
  | Canceled                           (* context.Canceled, the value of ctx.Err() *)
  | ErrIOHandler (n : Z)               (* an error of netconn.NewIOHandler *)
  | ErrDuplicateID (id : string)       (* a registry refusing a second registration *)
  | ErrNotFound (id : string)          (* a registry asked to remove an absent identity *)
  | ErrStart (n : Z)                   (* an error returned by a worker's Start *)
  | Errorf (msg : string) (e : error).

Global Instance error_eq_dec : EqDecision error.
Proof. solve_decision. Defined.

(** [errors.Is]: equality with the target along the chain of wrapped errors. *)
Fixpoint errors_Is (err target : error) : bool :=
  if decide (err = target) then true
  else match err with
       | Errorf _ e => errors_Is e target
       | _ => false
       end.

(** The two would-block numbers of package syscall (linux): both are 0xb. *)
Definition EAGAIN : error := Errno 11.
Definition EWOULDBLOCK : error := Errno 11.

Definition DefaultConnBacklogSize : Z := 128.

(** ** The identifier generator (server.go, lines 273-285) *)

(** [GenerateUniqueID prefix counter]: [counter] is the value the shared
    counter holds before the call and [now] what [time.Now().UnixMilli()]
    reads during it; the result is the counter after the atomic add and the
    formatted identity ["%s-%d-%d"]. *)
Definition GenerateUniqueID (startTime : Z) (prefix : string) (counter now : Z)
    : Z * string :=
  let count := wrap_uint64 (counter + 1) in
  let timestamp := wrap_int64 (now - startTime) in
  (count, prefix +:+ "-" +:+ pretty timestamp +:+ "-" +:+ pretty count).

Definition GenerateUniqueIOThreadID (startTime ioThreadCounter now : Z) : Z * string :=
  GenerateUniqueID startTime "I" ioThreadCounter now.

Definition GenerateUniqueCommandHandlerID (startTime cmdHandlerCounter now : Z)
    : Z * string :=
  GenerateUniqueID startTime "C" cmdHandlerCounter now.



(** A string without the separator character. *)
Fixpoint dash_free (s : string) : Prop :=
  match s with
  | EmptyString => True
  | String a s => a ≠ "-"%char ∧ dash_free s
  end.

(** ** The worker registries *)

Record BaseIOThread : Type := mkIOThread {
  io_id : string;        (* thread.ID() *)
  io_fd : Z;             (* the client descriptor its io-handler owns *)
}.

Record BaseCommandHandler : Type := mkCommandHandler {
  ch_id : string;        (* cmdHandler.ID() *)
}.

Global Instance BaseIOThread_eq_dec : EqDecision BaseIOThread.
Proof. solve_decision. Defined.
Global Instance BaseCommandHandler_eq_dec : EqDecision BaseCommandHandler.
Proof. solve_decision. Defined.

(** Modelled from the spec: iothread.Manager and commandhandler.Registry are
    not under src/.  A registry maps identity to handle; registering a
    present identity fails with DuplicateID and changes nothing, otherwise it
    inserts; unregistering an absent identity fails with NotFound, otherwise
    it removes. *)
Definition registry_register {A} (id : string) (h : A) (m : gmap string A)
    : gmap string A * option error :=
  match m !! id with
  | Some _ => (m, Some (ErrDuplicateID id))
  | None => (<[id := h]> m, None)
  end.

Definition registry_unregister {A} (id : string) (m : gmap string A)
    : gmap string A * option error :=
  match m !! id with
  | Some _ => (delete id m, None)
  | None => (m, Some (ErrNotFound id))
  end.

(** ** Observable events *)

(** What the server does to its environment, newest first in the log:
    system calls with their results ([inl fd] or [None] for success, an
    errno otherwise), registry calls with their results, goroutine starts. *)
Inductive event : Type :=
  | SysSocket (r : Z + Z)
  | SysSetsockoptInt (fd : Z) (r : option Z)
  | SysSetNonblock (fd : Z) (r : option Z)
  | SysBind (fd port : Z) (addr : list Z) (r : option Z)
  | SysListen (fd backlog : Z) (r : option Z)
  | SysClose (fd : Z) (r : option Z)
  | SysAccept (fd : Z) (r : Z + Z)
  | EvRegisterIOThread (t : BaseIOThread) (r : option error)
  | EvRegisterCommandHandler (h : BaseCommandHandler) (r : option error)
  | EvUnregisterIOThread (id : string) (r : option error)
  | EvUnregisterCommandHandler (id : string) (r : option error)
  | EvGoWatchManager
  | EvGoAccept
  | EvGoIOThread (t : BaseIOThread)
  | EvGoCommandHandler (h : BaseCommandHandler).

Global Instance event_eq_dec : EqDecision event.
Proof. solve_decision. Defined.

(** Number of [close] calls issued on descriptor [fd]. *)
Definition is_close (fd : Z) (e : event) : bool :=
  match e with SysClose fd' _ => bool_decide (fd' = fd) | _ => false end.

Definition closes (fd : Z) (log : list event) : nat :=
  length (filter (λ e, is_close fd e = true) log).

(** Whether descriptor [fd] is open after the calls of [log]: the newest
    call that returned or closed it decides. *)
Fixpoint fd_open (fd : Z) (log : list event) : bool :=
  match log with
  | [] => false
  | SysSocket (inl fd') :: log' =>
      if decide (fd' = fd) then true else fd_open fd log'
  | SysAccept _ (inl fd') :: log' =>
      if decide (fd' = fd) then true else fd_open fd log'
  | SysClose fd' _ :: log' =>
      if decide (fd' = fd) then false else fd_open fd log'
  | _ :: log' => fd_open fd log'
  end.

(** ** The server *)

(** The fields of [Server].  The two managers, the shard manager, the watch
    manager, the global error channel and the write-ahead log are references
    to objects outside this file; [cmdWatchSubscriptionChan] is [None] for a
    nil channel. *)
Record Server : Type := mkServer {
  Host : string;
  Port : Z;
  serverFD : Z;
  connBacklogSize : Z;
  ioThreadManager : positive;
  cmdHandlerManager : positive;
  shardManager : positive;
  watchManager : positive;
  cmdWatchSubscriptionChan : option positive;
  globalErrorChan : positive;
  wl : positive;
}.

Global Instance Server_eq_dec : EqDecision Server.
Proof. solve_decision. Defined.

Definition set_serverFD (fd : Z) (s : Server) : Server :=
  mkServer (Host s) (Port s) fd (connBacklogSize s) (ioThreadManager s)
    (cmdHandlerManager s) (shardManager s) (watchManager s)
    (cmdWatchSubscriptionChan s) (globalErrorChan s) (wl s).

(** [NewServer] (lines 61-76): [host] and [port] are config.Config.Host and
    config.Config.Port; the watch manager is the freshly built [wm];
    [serverFD] keeps Go's zero value. *)
Definition NewServer (host : string) (port : Z)
    (shardManager ioThreadManager cmdHandlerManager : positive)
    (cmdWatchSubscriptionChan : option positive) (wm globalErrChan wl : positive)
    : Server :=
  mkServer host port 0 DefaultConnBacklogSize ioThreadManager cmdHandlerManager
    shardManager wm cmdWatchSubscriptionChan globalErrChan wl.

(** ** BindAndListen (lines 122-168) and ReleasePort (lines 170-175) *)

(** What the environment answers during one call of [BindAndListen]:
    the result of each system call and [net.ParseIP] ([None] is nil). *)
Record BindOracle : Type := mkBindOracle {
  o_socket : Z + Z;
  o_setsockopt : option Z;
  o_setnonblock : option Z;
  o_ParseIP : string → option (list Z);
  o_bind : option Z;
  o_listen : option Z;
  o_close : option Z;
}.

(** The body after the descriptor exists.  The result is the server, the
    log, the value returned and the value the local variable [err] holds at
    the return, which is what the deferred function reads. *)
Definition BindAndListen_body (o : BindOracle) (s : Server) (serverFD : Z)
    (log : list event) : Server * list event * option error * option error :=
  let log := SysSetsockoptInt serverFD (o_setsockopt o) :: log in
  match o_setsockopt o with
  | Some e =>
      (s, log, Some (Errorf "failed to set SO_REUSEADDR" (Errno e)), Some (Errno e))
  | None =>
  let log := SysSetNonblock serverFD (o_setnonblock o) :: log in
  match o_setnonblock o with
  | Some e =>
      (s, log, Some (Errorf "failed to set socket to non-blocking" (Errno e)),
       Some (Errno e))
  | None =>
  match o_ParseIP o (Host s) with
  | None => (s, log, Some ErrInvalidIPAddress, None)
  | Some ip4 =>
  let addr := [ip4 !!! 0%nat; ip4 !!! 1%nat; ip4 !!! 2%nat; ip4 !!! 3%nat] in
  let log := SysBind serverFD (Port s) addr (o_bind o) :: log in
  match o_bind o with
  | Some e => (s, log, Some (Errorf "failed to bind socket" (Errno e)), Some (Errno e))
  | None =>
  let log := SysListen serverFD (connBacklogSize s) (o_listen o) :: log in
  match o_listen o with
  | Some e =>
      (s, log, Some (Errorf "failed to listen on socket" (Errno e)), Some (Errno e))
  | None => (set_serverFD serverFD s, log, None, None)
  end end end end end.

Definition BindAndListen (o : BindOracle) (s : Server) (log : list event)
    : Server * list event * option error :=
  match o_socket o with
  | inr socketErr =>
      (s, SysSocket (inr socketErr) :: log,
       Some (Errorf "failed to create socket" (Errno socketErr)))
  | inl serverFD =>
      let '(s', log', ret, err) :=
        BindAndListen_body o s serverFD (SysSocket (inl serverFD) :: log) in
      (* the deferred function: close the socket if [err] is not nil *)
      let log'' := match err with
                   | Some _ => SysClose serverFD (o_close o) :: log'
                   | None => log'
                   end in
      (s', log'', ret)
  end.

Definition ReleasePort (closeRes : option Z) (s : Server) (log : list event)
    : list event :=
  SysClose (serverFD s) closeRes :: log.

(** ** Goroutines and the process state *)

(** Where [Run] (lines 78-120) stands. *)
Inductive run_pc : Type :=
  | RunBind                              (* line 80, before BindAndListen *)
  | RunBindFailed (err : error)          (* returned at line 82 *)
  | RunGoWatch                           (* line 91 *)
  | RunGoAccept                          (* line 99 *)
  | RunSelect                            (* line 107 *)
  | RunShutdown (err : option error)     (* line 114 *)
  | RunWait (err : option error)         (* line 116 *)
  | RunRelease (err : option error)      (* line 119, the deferred ReleasePort *)
  | RunReturned (err : option error).    (* returned at line 119 *)

(** The pair built for one accepted connection (lines 203-217); the client
    descriptor is [io_fd thread]. *)
Record conn : Type := mkConn {
  thread : BaseIOThread;
  handler : BaseCommandHandler;
}.

(** Where the goroutine of lines 100-105 stands, inside
    [AcceptConnectionRequests] (lines 178-239) or after it. *)
Inductive accept_pc : Type :=
  | AccLoop                              (* line 180, top of the loop *)
  | AccRegisterIOThread (c : conn)       (* line 220 *)
  | AccRegisterCommandHandler (c : conn) (* line 227 *)
  | AccStart (c : conn)                  (* line 234 *)
  | AccReturned (err : error)            (* line 102, the call returned err *)
  | AccExit (err : error)                (* after line 103, before the deferred wg.Done *)
  | AccDone (err : error).

(** Where the goroutine of lines 93-96 stands. *)
Inductive watch_pc : Type :=
  | WatchRunning                         (* inside watchManager.Run(ctx) *)
  | WatchReturned                        (* before the deferred wg.Done *)
  | WatchDone.

(** Where [startIOThread] (lines 241-255) or [startCommandHandler]
    (lines 257-271) stands. *)
Inductive worker_pc : Type :=
  | WorkerSpawned                        (* before wg.Done, line 242 / 258 *)
  | WorkerStart                          (* inside Start(ctx2), line 251 / 267 *)
  | WorkerStopped (err : option error)   (* Start returned; the defers are pending *)
  | WorkerExited.

Inductive goroutine : Type :=
  | GWatchManager (pc : watch_pc)
  | GAccept (pc : accept_pc)
  | GIOThread (t : BaseIOThread) (pc : worker_pc)
  | GCommandHandler (h : BaseCommandHandler) (pc : worker_pc).

Global Instance run_pc_eq_dec : EqDecision run_pc.
Proof. solve_decision. Defined.
Global Instance conn_eq_dec : EqDecision conn.
Proof. solve_decision. Defined.
Global Instance accept_pc_eq_dec : EqDecision accept_pc.
Proof. solve_decision. Defined.
Global Instance watch_pc_eq_dec : EqDecision watch_pc.
Proof. solve_decision. Defined.
Global Instance worker_pc_eq_dec : EqDecision worker_pc.
Proof. solve_decision. Defined.
Global Instance goroutine_eq_dec : EqDecision goroutine.
Proof. solve_decision. Defined.

(** The process: the server's fields, the contents of the two registries the
    server points to, the package-level variables, the governing context,
    Run's local [errChan] (capacity 1) and [wg], the event log, and the
    goroutines. *)
Record State : Type := mkState {
  srv : Server;
  ioThreads : gmap string BaseIOThread;
  cmdHandlers : gmap string BaseCommandHandler;
  ioThreadCounter : Z;
  cmdHandlerCounter : Z;
  startTime : Z;
  ctx_done : bool;
  errChan : list error;
  wg : Z;
  log : list event;
  run : run_pc;
  pool : list goroutine;
}.

Definition set_srv (v : Server) (s : State) : State :=
  mkState v (ioThreads s) (cmdHandlers s) (ioThreadCounter s) (cmdHandlerCounter s)
    (startTime s) (ctx_done s) (errChan s) (wg s) (log s) (run s) (pool s).
Definition set_ioThreads (v : gmap string BaseIOThread) (s : State) : State :=
  mkState (srv s) v (cmdHandlers s) (ioThreadCounter s) (cmdHandlerCounter s)
    (startTime s) (ctx_done s) (errChan s) (wg s) (log s) (run s) (pool s).
Definition set_cmdHandlers (v : gmap string BaseCommandHandler) (s : State) : State :=
  mkState (srv s) (ioThreads s) v (ioThreadCounter s) (cmdHandlerCounter s)
    (startTime s) (ctx_done s) (errChan s) (wg s) (log s) (run s) (pool s).
Definition set_counters (io cmd : Z) (s : State) : State :=
  mkState (srv s) (ioThreads s) (cmdHandlers s) io cmd
    (startTime s) (ctx_done s) (errChan s) (wg s) (log s) (run s) (pool s).
Definition set_ctx_done (v : bool) (s : State) : State :=
  mkState (srv s) (ioThreads s) (cmdHandlers s) (ioThreadCounter s) (cmdHandlerCounter s)
    (startTime s) v (errChan s) (wg s) (log s) (run s) (pool s).
Definition set_errChan (v : list error) (s : State) : State :=
  mkState (srv s) (ioThreads s) (cmdHandlers s) (ioThreadCounter s) (cmdHandlerCounter s)
    (startTime s) (ctx_done s) v (wg s) (log s) (run s) (pool s).
Definition set_wg (v : Z) (s : State) : State :=
  mkState (srv s) (ioThreads s) (cmdHandlers s) (ioThreadCounter s) (cmdHandlerCounter s)
    (startTime s) (ctx_done s) (errChan s) v (log s) (run s) (pool s).
Definition set_log (v : list event) (s : State) : State :=
  mkState (srv s) (ioThreads s) (cmdHandlers s) (ioThreadCounter s) (cmdHandlerCounter s)
    (startTime s) (ctx_done s) (errChan s) (wg s) v (run s) (pool s).
Definition set_run (v : run_pc) (s : State) : State :=
  mkState (srv s) (ioThreads s) (cmdHandlers s) (ioThreadCounter s) (cmdHandlerCounter s)
    (startTime s) (ctx_done s) (errChan s) (wg s) (log s) v (pool s).
Definition set_pool (v : list goroutine) (s : State) : State :=
  mkState (srv s) (ioThreads s) (cmdHandlers s) (ioThreadCounter s) (cmdHandlerCounter s)
    (startTime s) (ctx_done s) (errChan s) (wg s) (log s) (run s) v.

Definition emit (e : event) (s : State) : State := set_log (e :: log s) s.
Definition wg_Add (n : Z) (s : State) : State := set_wg (wg s + n) s.
Definition wg_Done (s : State) : State := set_wg (wg s - 1) s.

(** A process at the call of [Run]: no goroutine of the server exists yet,
    the wait group and the error channel are new, nothing is logged. *)
Definition fresh (s : State) : Prop :=
  run s = RunBind ∧ pool s = [] ∧ wg s = 0 ∧ errChan s = [] ∧ log s = [].

(** ** The environment's part of a step *)

Inductive go_oracle : Type :=
  | OStep
    (* no answer needed *)
  | OAccept (r : Z + Z) (h : option Z) (now_io now_cmd : Z)
    (* syscall.Accept's result, netconn.NewIOHandler's error if any, and the
       clock readings of the two identifier generations *)
  | OStart (r : option error).
    (* a worker's Start returns r *)

Inductive label : Type :=
  | LCancel                              (* the caller cancels ctx *)
  | LRunBind (o : BindOracle)            (* Run calls BindAndListen *)
  | LRunStep                             (* Run's next statement *)
  | LRunSelectDone                       (* the select takes <-ctx.Done() *)
  | LRunSelectErr                        (* the select takes <-errChan *)
  | LRunRelease (closeRes : option Z)    (* the deferred ReleasePort *)
  | LGo (i : nat) (o : go_oracle).       (* goroutine i of the pool moves *)

(** ** Shutdown (lines 287-289): the body is empty. *)
Definition Shutdown (s : State) : State := s.

(** ** AcceptConnectionRequests, one statement group at a time *)

Definition is_would_block (e : Z) : bool :=
  errors_Is (Errno e) EAGAIN || errors_Is (Errno e) EWOULDBLOCK.

(** Lines 180-217: the select on ctx.Done(), the accept call, the I/O
    handler, and the construction of the pair. *)
Definition accept_loop (o : go_oracle) (s : State) : option (accept_pc * State) :=
  if ctx_done s then Some (AccReturned Canceled, s)
  else match o with
  | OAccept r h now_io now_cmd =>
      let s := emit (SysAccept (serverFD (srv s)) r) s in
      match r with
      | inr e =>
          if is_would_block e then Some (AccLoop, s)
          else Some (AccReturned (Errorf "error accepting connection" (Errno e)), s)
      | inl clientFD =>
          match h with
          | Some e => Some (AccReturned (ErrIOHandler e), s)
          | None =>
              let '(ioc, ioThreadID) :=
                GenerateUniqueIOThreadID (startTime s) (ioThreadCounter s) now_io in
              let '(cmdc, cmdHandlerID) :=
                GenerateUniqueCommandHandlerID (startTime s) (cmdHandlerCounter s) now_cmd in
              Some (AccRegisterIOThread
                      (mkConn (mkIOThread ioThreadID clientFD)
                              (mkCommandHandler cmdHandlerID)),
                    set_counters ioc cmdc s)
          end
      end
  | _ => None
  end.

(** One step inside [AcceptConnectionRequests]: the new program counter, the
    state and the goroutines it started. *)
Definition AcceptConnectionRequests (o : go_oracle) (pc : accept_pc) (s : State)
    : option (accept_pc * State * list goroutine) :=
  match pc with
  | AccLoop => p ← accept_loop o s; Some (p, [])
  | AccRegisterIOThread c =>
      (* lines 220-224 *)
      let '(m, err) := registry_register (io_id (thread c)) (thread c) (ioThreads s) in
      let s := emit (EvRegisterIOThread (thread c) err) (set_ioThreads m s) in
      match err with
      | Some _ => Some (AccLoop, s, [])
      | None => Some (AccRegisterCommandHandler c, s, [])
      end
  | AccRegisterCommandHandler c =>
      (* lines 227-231 *)
      let '(m, err) := registry_register (ch_id (handler c)) (handler c) (cmdHandlers s) in
      let s := emit (EvRegisterCommandHandler (handler c) err) (set_cmdHandlers m s) in
      match err with
      | Some _ => Some (AccLoop, s, [])
      | None => Some (AccStart c, s, [])
      end
  | AccStart c =>
      (* lines 234-236 *)
      let s := wg_Add 2 s in
      let s := emit (EvGoIOThread (thread c)) s in
      let s := emit (EvGoCommandHandler (handler c)) s in
      Some (AccLoop, s,
            [GIOThread (thread c) WorkerSpawned; GCommandHandler (handler c) WorkerSpawned])
  | _ => None
  end.

(** One step of the goroutine of lines 100-105: inside the call, or after
    it, the send of the wrapped error and the deferred wg.Done. *)
Definition accept_goroutine (o : go_oracle) (pc : accept_pc) (s : State)
    : option (accept_pc * State * list goroutine) :=
  match pc with
  | AccReturned err =>
      (* line 103: the send blocks while the buffer is full *)
      match errChan s with
      | [] => Some (AccExit err,
                    set_errChan [Errorf "failed to accept connections" err] s, [])
      | _ => None
      end
  | AccExit err => Some (AccDone err, wg_Done s, [])
  | AccDone _ => None
  | _ => AcceptConnectionRequests o pc s
  end.

(** Modelled from the spec: watchmanager.Manager.Run is not under src/.  It
    is a long-lived task whose suspensions the governing cancellation
    interrupts: it returns once the context is done, and not before. *)
Definition watch_goroutine (pc : watch_pc) (s : State)
    : option (watch_pc * State) :=
  match pc with
  | WatchRunning => if ctx_done s then Some (WatchReturned, s) else None
  | WatchReturned => Some (WatchDone, wg_Done s)
  | WatchDone => None
  end.

(** [startIOThread]: wg.Done first, then Start, then the deferred cancel of
    the derived context and the deferred unregistration.  Start is outside
    this file: it returns when the environment says so. *)
Definition startIOThread (o : go_oracle) (t : BaseIOThread) (pc : worker_pc)
    (s : State) : option (worker_pc * State) :=
  match pc, o with
  | WorkerSpawned, OStep => Some (WorkerStart, wg_Done s)
  | WorkerStart, OStart r => Some (WorkerStopped r, s)
  | WorkerStopped _, OStep =>
      let '(m, err) := registry_unregister (io_id t) (ioThreads s) in
      Some (WorkerExited, emit (EvUnregisterIOThread (io_id t) err) (set_ioThreads m s))
  | _, _ => None
  end.

Definition startCommandHandler (o : go_oracle) (h : BaseCommandHandler)
    (pc : worker_pc) (s : State) : option (worker_pc * State) :=
  match pc, o with
  | WorkerSpawned, OStep => Some (WorkerStart, wg_Done s)
  | WorkerStart, OStart r => Some (WorkerStopped r, s)
  | WorkerStopped _, OStep =>
      let '(m, err) := registry_unregister (ch_id h) (cmdHandlers s) in
      Some (WorkerExited,
            emit (EvUnregisterCommandHandler (ch_id h) err) (set_cmdHandlers m s))
  | _, _ => None
  end.

Definition go_step (o : go_oracle) (g : goroutine) (s : State)
    : option (goroutine * State * list goroutine) :=
  match g with
  | GWatchManager pc =>
      match o with
      | OStep => '(pc', s') ← watch_goroutine pc s; Some (GWatchManager pc', s', [])
      | _ => None
      end
  | GAccept pc =>
      '(pc', s', new) ← accept_goroutine o pc s; Some (GAccept pc', s', new)
  | GIOThread t pc =>
      '(pc', s') ← startIOThread o t pc s; Some (GIOThread t pc', s', [])
  | GCommandHandler h pc =>
      '(pc', s') ← startCommandHandler o h pc s; Some (GCommandHandler h pc', s', [])
  end.

(** ** Run (lines 78-120), one statement at a time *)

Definition Run (l : label) (s : State) : option State :=
  match l, run s with
  | LRunBind o, RunBind =>
      (* lines 80-85 *)
      let '(sv, lg, err) := BindAndListen o (srv s) (log s) in
      let s := set_log lg (set_srv sv s) in
      match err with
      | Some e => Some (set_run (RunBindFailed e) s)
      | None => Some (set_run RunGoWatch s)
      end
  | LRunStep, RunGoWatch =>
      (* lines 91-97 *)
      match cmdWatchSubscriptionChan (srv s) with
      | Some _ =>
          let s := emit EvGoWatchManager (wg_Add 1 s) in
          Some (set_run RunGoAccept (set_pool (pool s ++ [GWatchManager WatchRunning]) s))
      | None => Some (set_run RunGoAccept s)
      end
  | LRunStep, RunGoAccept =>
      (* lines 99-105 *)
      let s := emit EvGoAccept (wg_Add 1 s) in
      Some (set_run RunSelect (set_pool (pool s ++ [GAccept AccLoop]) s))
  | LRunSelectDone, RunSelect =>
      (* lines 108-109: err keeps the nil BindAndListen returned *)
      if ctx_done s then Some (set_run (RunShutdown None) s) else None
  | LRunSelectErr, RunSelect =>
      (* lines 110-111 *)
      match errChan s with
      | e :: q => Some (set_run (RunShutdown (Some e)) (set_errChan q s))
      | [] => None
      end
  | LRunStep, RunShutdown err => Some (set_run (RunWait err) (Shutdown s))
  | LRunStep, RunWait err =>
      (* line 116: wg.Wait returns when the counter is zero *)
      if decide (wg s = 0) then Some (set_run (RunRelease err) s) else None
  | LRunRelease closeRes, RunRelease err =>
      Some (set_run (RunReturned err) (set_log (ReleasePort closeRes (srv s) (log s)) s))
  | _, _ => None
  end.

(** ** The transition function and executions *)

Definition step (l : label) (s : State) : option State :=
  match l with
  | LCancel => Some (set_ctx_done true s)
  | LGo i o =>
      g ← pool s !! i;
      '(g', s', new) ← go_step o g s;
      Some (set_pool (<[i := g']> (pool s') ++ new) s')
  | _ => Run l s
  end.

Fixpoint exec (tr : list label) (s : State) : option State :=
  match tr with
  | [] => Some s
  | l :: tr => s' ← step l s; exec tr s'
  end.

(** ** Counting goroutines *)

(** The sum of a weight over the pool. *)
Definition total (w : goroutine → Z) (p : list goroutine) : Z :=
  foldr (λ g n, w g + n) 0 p.

(** A goroutine that has been added to the wait group and has not called
    wg.Done yet weighs one. *)
Definition holds_wg (g : goroutine) : Z :=
  match g with
  | GWatchManager WatchDone => 0
  | GWatchManager _ => 1
  | GAccept (AccDone _) => 0
  | GAccept _ => 1
  | GIOThread _ WorkerSpawned => 1
  | GCommandHandler _ WorkerSpawned => 1
  | _ => 0
  end.

Definition is_watch (g : goroutine) : Z :=
  match g with GWatchManager _ => 1 | _ => 0 end.

Definition is_accept (g : goroutine) : Z :=
  match g with GAccept _ => 1 | _ => 0 end.

(** [Run] has passed line 97 / line 105. *)
Definition past_go_watch (pc : run_pc) : bool :=
  match pc with RunBind | RunBindFailed _ | RunGoWatch => false | _ => true end.

Definition past_go_accept (pc : run_pc) : bool :=
  match pc with
  | RunBind | RunBindFailed _ | RunGoWatch | RunGoAccept => false
  | _ => true
  end.

(** [Run] is past wg.Wait. *)
Definition past_wait (pc : run_pc) : bool :=
  match pc with RunRelease _ | RunReturned _ => true | _ => false end.

(** How many watch-manager and accept goroutines the pool should hold,
    given where [Run] stands. *)
Definition watch_expected (s : State) : Z :=
  if past_go_watch (run s)
  then match cmdWatchSubscriptionChan (srv s) with Some _ => 1 | None => 0 end
  else 0.

Definition accept_expected (s : State) : Z :=
  if past_go_accept (run s) then 1 else 0.

(** The wait group counts the goroutines that still owe it a Done; the pool
    holds the expected watch-manager and accept goroutines; past wg.Wait the
    counter is zero. *)
Definition counting (s : State) : Prop :=
  wg s = total holds_wg (pool s)
  ∧ total is_watch (pool s) = watch_expected s
  ∧ total is_accept (pool s) = accept_expected s
  ∧ (past_wait (run s) = true → wg s = 0).

(** ** What the log and the error values must look like *)


(** The listening socket over a call of [Run]: nothing is logged before the
    bind and no goroutine exists; a failed bind is a failed [BindAndListen]
    and its log, and still no goroutine exists; after a successful bind the
    server's descriptor is the one [listen] succeeded on, and no descriptor
    at all has been closed until [Run] returns, when the server's descriptor
    has been closed once and no other. *)
Definition released (s : State) : Prop :=
  match run s with
  | RunBind => log s = [] ∧ pool s = []
  | RunBindFailed e =>
      (∃ o, BindAndListen o (srv s) [] = (srv s, log s, Some e)) ∧ pool s = []
  | RunReturned _ =>
      SysListen (serverFD (srv s)) (connBacklogSize (srv s)) None ∈ log s
      ∧ closes (serverFD (srv s)) (log s) = 1%nat
      ∧ ∀ fd, fd ≠ serverFD (srv s) → closes fd (log s) = 0%nat
  | _ =>
      SysListen (serverFD (srv s)) (connBacklogSize (srv s)) None ∈ log s
      ∧ ∀ fd, closes fd (log s) = 0%nat
  end.

(** What [AcceptConnectionRequests] can return: the context's error once
    the context is done, a system-call error of accept that is not a
    would-block, or the error of the I/O handler's constructor. *)
Definition accept_error (done : bool) (e : error) : Prop :=
  (e = Canceled ∧ done = true)
  ∨ (∃ n, e = Errorf "error accepting connection" (Errno n)
          ∧ is_would_block n = false)
  ∨ (∃ n, e = ErrIOHandler n).

(** What travels on Run's error channel. *)
Definition sent_error (done : bool) (e : error) : Prop :=
  ∃ e', e = Errorf "failed to accept connections" e' ∧ accept_error done e'.

Definition accept_returns (done : bool) (g : goroutine) : Prop :=
  match g with
  | GAccept (AccReturned e) | GAccept (AccExit e) | GAccept (AccDone e) =>
      accept_error done e
  | _ => True
  end.

(** The value [Run] is about to return, once its select has chosen. *)
Definition chosen (pc : run_pc) : option (option error) :=
  match pc with
  | RunShutdown r | RunWait r | RunRelease r | RunReturned r => Some r
  | _ => None
  end.

Definition outcome (s : State) : Prop :=
  Forall (accept_returns (ctx_done s)) (pool s)
  ∧ Forall (sent_error (ctx_done s)) (errChan s)
  ∧ ∀ r, chosen (run s) = Some r →
      match r with
      | None => ctx_done s = true
      | Some e => sent_error (ctx_done s) e
      end.

(** While the context is not done every watch-manager goroutine is inside
    watchManager.Run. *)
Definition watch_alive (s : State) : Prop :=
  ctx_done s = false →
  Forall (λ g, is_watch g = 1 → g = GWatchManager WatchRunning) (pool s).

(** Workers are started two at a time, the io-thread and then its command
    handler, and only after both have been registered with success. *)
Fixpoint started_in_pairs (lg : list event) : Prop :=
  match lg with
  | [] => True
  | EvGoCommandHandler h :: lg' =>
      match lg' with
      | EvGoIOThread t :: lg'' =>
          (EvRegisterIOThread t None ∈ lg'' ∧ EvRegisterCommandHandler h None ∈ lg'')
          ∧ started_in_pairs lg''
      | _ => False
      end
  | EvGoIOThread _ :: _ => False
  | _ :: lg' => started_in_pairs lg'
  end.

(** What the log holds about the pair the accept goroutine is wiring. *)
Definition wiring (lg : list event) (g : goroutine) : Prop :=
  match g with
  | GAccept (AccRegisterCommandHandler c) => EvRegisterIOThread (thread c) None ∈ lg
  | GAccept (AccStart c) =>
      EvRegisterIOThread (thread c) None ∈ lg
      ∧ EvRegisterCommandHandler (handler c) None ∈ lg
  | _ => True
  end.

Definition registered (s : State) : Prop :=
  started_in_pairs (log s) ∧ Forall (wiring (log s)) (pool s).

(** [Run] got past a successful bind. *)
Definition bound (pc : run_pc) : bool :=
  match pc with RunBind | RunBindFailed _ => false | _ => true end.

(** ** Running down to the return *)


(** The accept goroutine has sent on the error channel (any other goroutine
    never sends). *)
Definition has_sent (g : goroutine) : Prop :=
  match g with
  | GAccept (AccExit _) | GAccept (AccDone _) => True
  | GAccept _ => False
  | _ => True
  end.

(** The error channel is empty until the accept goroutine has sent. *)
Definition unsent (s : State) : Prop :=
  (past_go_accept (run s) = false → errChan s = [])
  ∧ (errChan s = [] ∨ Forall has_sent (pool s)).


(** A registration that the registry will refuse. *)
Definition registration_fails (s : State) (g : goroutine) : Prop :=
  match g with
  | GAccept (AccRegisterIOThread c) => is_Some (ioThreads s !! io_id (thread c))
  | GAccept (AccRegisterCommandHandler c) =>
      is_Some (cmdHandlers s !! ch_id (handler c))
  | _ => False
  end.

(** The event such a registration logs. *)
Definition refusal (g : goroutine) : list event :=
  match g with
  | GAccept (AccRegisterIOThread c) =>
      [EvRegisterIOThread (thread c) (Some (ErrDuplicateID (io_id (thread c))))]
  | GAccept (AccRegisterCommandHandler c) =>
      [EvRegisterCommandHandler (handler c) (Some (ErrDuplicateID (ch_id (handler c))))]
  | _ => []
  end.

(** A worker inside Start, and the same worker after Start returned [r]. *)
Definition worker_running (g : goroutine) : Prop :=
  match g with
  | GIOThread _ WorkerStart | GCommandHandler _ WorkerStart => True
  | _ => False
  end.

Definition worker_stopped (r : option error) (g : goroutine) : goroutine :=
  match g with
  | GIOThread t _ => GIOThread t (WorkerStopped r)
  | GCommandHandler h _ => GCommandHandler h (WorkerStopped r)
  | _ => g
  end.

(** ** Further bookkeeping over the log and the pool *)

(** The 16-byte form in which net.ParseIP returns the IPv4 address
    a.b.c.d. *)
Definition ipv4_in_16 (a b c d : Z) : list Z :=
  [0; 0; 0; 0; 0; 0; 0; 0; 0; 0; 255; 255; a; b; c; d].

(** Every call of the bind path succeeds and the host parses. *)
Definition all_succeed (o : BindOracle) (sv : Server) : Prop :=
  (∃ fd, o_socket o = inl fd) ∧ o_setsockopt o = None ∧ o_setnonblock o = None
  ∧ is_Some (o_ParseIP o (Host sv)) ∧ o_bind o = None ∧ o_listen o = None.

(** How many events of the log satisfy [f]. *)
Definition count_events (f : event → bool) (lg : list event) : Z :=
  Z.of_nat (length (filter (λ e, f e = true) lg)).

(** The calls [BindAndListen] can issue. *)
Definition is_bind_path_call (e : event) : bool :=
  match e with
  | SysSocket _ | SysSetsockoptInt _ _ | SysSetNonblock _ _ | SysBind _ _ _ _
  | SysListen _ _ _ | SysClose _ _ => true
  | _ => false
  end.

Definition is_accept_call (e : event) : bool :=
  match e with SysAccept _ _ => true | _ => false end.
Definition is_go_io (e : event) : bool :=
  match e with EvGoIOThread _ => true | _ => false end.
Definition is_go_cmd (e : event) : bool :=
  match e with EvGoCommandHandler _ => true | _ => false end.
Definition is_unregister_io (e : event) : bool :=
  match e with EvUnregisterIOThread _ _ => true | _ => false end.
Definition is_unregister_cmd (e : event) : bool :=
  match e with EvUnregisterCommandHandler _ _ => true | _ => false end.

(** A started worker that has not run its deferred unregistration yet. *)
Definition live_io (g : goroutine) : Z :=
  match g with
  | GIOThread _ WorkerExited => 0
  | GIOThread _ _ => 1
  | _ => 0
  end.

Definition live_cmd (g : goroutine) : Z :=
  match g with
  | GCommandHandler _ WorkerExited => 0
  | GCommandHandler _ _ => 1
  | _ => 0
  end.

(** The log holds the start of the worker. *)
Definition started (lg : list event) (g : goroutine) : Prop :=
  match g with
  | GIOThread t _ => EvGoIOThread t ∈ lg
  | GCommandHandler h _ => EvGoCommandHandler h ∈ lg
  | _ => True
  end.

(** Every unregistration is of the identity of a worker started before. *)
Fixpoint unregisters_own (lg : list event) : Prop :=
  match lg with
  | [] => True
  | EvUnregisterIOThread id _ :: lg' =>
      (∃ t, EvGoIOThread t ∈ lg' ∧ io_id t = id) ∧ unregisters_own lg'
  | EvUnregisterCommandHandler id _ :: lg' =>
      (∃ h, EvGoCommandHandler h ∈ lg' ∧ ch_id h = id) ∧ unregisters_own lg'
  | _ :: lg' => unregisters_own lg'
  end.

(** Each started worker is still live in the pool or has unregistered, once. *)
Definition accounting (s : State) : Prop :=
  count_events is_go_io (log s)
  = count_events is_unregister_io (log s) + total live_io (pool s)
  ∧ count_events is_go_cmd (log s)
    = count_events is_unregister_cmd (log s) + total live_cmd (pool s)
  ∧ unregisters_own (log s)
  ∧ Forall (started (log s)) (pool s).

(** The two identities carry the same sequence number. *)
Definition same_sequence (t : BaseIOThread) (h : BaseCommandHandler) : Prop :=
  ∃ ts_io ts_cmd seq : Z,
    io_id t = "I" +:+ "-" +:+ pretty ts_io +:+ "-" +:+ pretty seq
    ∧ ch_id h = "C" +:+ "-" +:+ pretty ts_cmd +:+ "-" +:+ pretty seq.

Fixpoint pairs_share_sequence (lg : list event) : Prop :=
  match lg with
  | [] => True
  | EvGoCommandHandler h :: lg' =>
      match lg' with
      | EvGoIOThread t :: lg'' => same_sequence t h ∧ pairs_share_sequence lg''
      | _ => False
      end
  | EvGoIOThread _ :: _ => False
  | _ :: lg' => pairs_share_sequence lg'
  end.

Definition wired_in_sequence (g : goroutine) : Prop :=
  match g with
  | GAccept (AccRegisterIOThread c) | GAccept (AccRegisterCommandHandler c)
  | GAccept (AccStart c) => same_sequence (thread c) (handler c)
  | _ => True
  end.

(** The two counters advance together, and so do the identities built from
    them. *)
Definition lockstep (s : State) : Prop :=
  ioThreadCounter s = cmdHandlerCounter s
  ∧ pairs_share_sequence (log s)
  ∧ Forall wired_in_sequence (pool s).

(** ** Concrete scenarios *)

(** A server as [NewServer] builds it, with or without a watch-subscription
    channel, in a process whose registries hold [ios] and [cmds]. *)
Definition demo_server (chan : option positive) : Server :=
  NewServer "0.0.0.0" 7379 1 2 3 chan 4 5 6.

Definition demo_state (chan : option positive)
    (ios : gmap string BaseIOThread) (cmds : gmap string BaseCommandHandler) : State :=
  mkState (demo_server chan) ios cmds 0 0 0 false [] 0 [] RunBind [].

(** An environment in which every call of the bind path succeeds and the
    socket is descriptor [fd]; only the unspecified address parses. *)
Definition demo_ParseIP (host : string) : option (list Z) :=
  if decide (host = "0.0.0.0")
  then Some [0; 0; 0; 0; 0; 0; 0; 0; 0; 0; 255; 255; 0; 0; 0; 0]
  else None.

Definition bind_ok (fd : Z) : BindOracle :=
  mkBindOracle (inl fd) None None demo_ParseIP None None None.

(** One client connects and is served by a worker pair; the context is then
    cancelled and the accept loop leaves; Run takes the cancellation, waits
    and returns while both workers are still inside Start. *)
Definition trace_orphans : list label :=
  [ LRunBind (bind_ok 3); LRunStep; LRunStep;
    LGo 0 (OAccept (inl 4) None 0 0); LGo 0 OStep; LGo 0 OStep; LGo 0 OStep;
    LGo 1 OStep; LGo 2 OStep;
    LCancel;
    LGo 0 OStep; LGo 0 OStep; LGo 0 OStep;
    LRunSelectDone; LRunStep; LRunStep; LRunRelease None ].


(** The same client and workers; then accept fails with EMFILE (24), the
    accept loop leaves with that error, Run's select receives it, and Run
    waits and returns while both workers are still inside Start. *)
Definition trace_orphans_fatal : list label :=
  [ LRunBind (bind_ok 3); LRunStep; LRunStep;
    LGo 0 (OAccept (inl 4) None 0 0); LGo 0 OStep; LGo 0 OStep; LGo 0 OStep;
    LGo 1 OStep; LGo 2 OStep;
    LGo 0 (OAccept (inr 24) None 0 0); LGo 0 OStep; LGo 0 OStep;
    LRunSelectErr; LRunStep; LRunStep; LRunRelease None ].

(** A cancellation with nobody connecting. *)
Definition trace_cancel : list label :=
  [ LRunBind (bind_ok 3); LRunStep; LRunStep;
    LCancel;
    LGo 0 OStep; LGo 0 OStep; LGo 0 OStep;
    LRunSelectDone; LRunStep; LRunStep; LRunRelease None ].

(** A server with a watch-subscription channel is cancelled; the accept
    loop leaves with ctx.Err() and sends it before Run's select runs, and
    the select takes the error channel. *)
Definition trace_cancel_error : list label :=
  [ LRunBind (bind_ok 3); LRunStep; LRunStep;
    LCancel;
    LGo 1 OStep; LGo 1 OStep; LGo 1 OStep;
    LGo 0 OStep; LGo 0 OStep;
    LRunSelectErr; LRunStep; LRunStep; LRunRelease None ].

(** accept fails with EMFILE (24); the select takes the error channel. *)
Definition trace_fatal_accept : list label :=
  [ LRunBind (bind_ok 3); LRunStep; LRunStep;
    LGo 0 (OAccept (inr 24) None 0 0); LGo 0 OStep; LGo 0 OStep;
    LRunSelectErr; LRunStep; LRunStep; LRunRelease None ].


(** A client is accepted on descriptor 4 and the I/O handler cannot be
    created for it. *)
Definition trace_io_handler_failure : list label :=
  [ LRunBind (bind_ok 3); LRunStep; LRunStep;
    LGo 0 (OAccept (inl 4) (Some 1) 0 0); LGo 0 OStep; LGo 0 OStep;
    LRunSelectErr; LRunStep; LRunStep; LRunRelease None ].

(** A client is accepted on descriptor 4; the registration of its pair is
    refused; later the context is cancelled and Run returns. *)
Definition trace_refused : list label :=
  [ LRunBind (bind_ok 3); LRunStep; LRunStep;
    LGo 0 (OAccept (inl 4) None 0 0); LGo 0 OStep;
    LCancel;
    LGo 0 OStep; LGo 0 OStep; LGo 0 OStep;
    LRunSelectDone; LRunStep; LRunStep; LRunRelease None ].

(** The same when the io-thread is registered and the command handler is
    refused. *)
Definition trace_half_wired : list label :=
  [ LRunBind (bind_ok 3); LRunStep; LRunStep;
    LGo 0 (OAccept (inl 4) None 0 0); LGo 0 OStep; LGo 0 OStep;
    LCancel;
    LGo 0 OStep; LGo 0 OStep; LGo 0 OStep;
    LRunSelectDone; LRunStep; LRunStep; LRunRelease None ].

(** A registry that already holds the identity the first io-thread (the
    first command handler) of the process gets at clock reading 0. *)
Definition taken_io : gmap string BaseIOThread :=
  {[ "I-0-1" := mkIOThread "I-0-1" 9 ]}.

Definition taken_cmd : gmap string BaseCommandHandler :=
  {[ "C-0-1" := mkCommandHandler "C-0-1" ]}.

(** A server whose configured host is not an IP address. *)
Definition bad_host_server : Server := NewServer "localhost" 7379 1 2 3 None 4 5 6.

(** An environment in which every call of the bind path succeeds and every
    host parses as the IPv4 address 127.0.0.1. *)
Definition bind_loopback (fd : Z) : BindOracle :=
  mkBindOracle (inl fd) None None (λ _, Some (ipv4_in_16 127 0 0 1)) None None None.

(** An environment in which bind fails with EADDRINUSE (98). *)
Definition bind_in_use (fd : Z) : BindOracle :=
  mkBindOracle (inl fd) None None demo_ParseIP (Some 98) None None.

(** One client is served and both of its workers run to their end before
    the context is cancelled and Run returns. *)
Definition trace_served : list label :=
  [ LRunBind (bind_ok 3); LRunStep; LRunStep;
    LGo 0 (OAccept (inl 4) None 0 0); LGo 0 OStep; LGo 0 OStep; LGo 0 OStep;
    LGo 1 OStep; LGo 2 OStep;
    LGo 1 (OStart (Some (ErrStart 104))); LGo 2 (OStart None);
    LGo 1 OStep; LGo 2 OStep;
    LCancel;
    LGo 0 OStep; LGo 0 OStep; LGo 0 OStep;
    LRunSelectDone; LRunStep; LRunStep; LRunRelease None ].
(** * Proofs *)

(** ** The identifier generator *)

Section identities.

Lemma wrap_uint64_range z : 0 ≤ wrap_uint64 z < uint64_modulus.
Proof. unfold wrap_uint64, uint64_modulus. apply Z.mod_pos_bound. lia. Qed.





Lemma append_nil (s : string) : "" +:+ s = s.
Proof. reflexivity. Qed.

Lemma append_cons (a : ascii) (s t : string) : String a s +:+ t = String a (s +:+ t).
Proof. reflexivity. Qed.

Lemma dash_free_pretty_N_go x s : dash_free s → dash_free (pretty_N_go x s).
Proof.
  revert s. induction (N.lt_wf_0 x) as [x _ IH]; intros s Hs.
  assert (x = 0 ∨ 0 < x)%N as [->|?] by lia.
  - by rewrite pretty_N_go_0.
  - rewrite pretty_N_go_step by done. apply IH.
    { by apply N.div_lt. }
    split; [|done]. unfold pretty_N_char. by repeat case_match.
Qed.

Lemma dash_free_pretty_N (x : N) : dash_free (pretty x).
Proof.
  unfold pretty, pretty_N. case_decide; [by compute|].
  by apply dash_free_pretty_N_go.
Qed.

(** [%d] of an unsigned value has no minus sign. *)
Lemma dash_free_pretty_Z (z : Z) : 0 ≤ z → dash_free (pretty z).
Proof.
  destruct z as [|q|q]; [by compute| |lia]. intros _.
  apply (dash_free_pretty_N (N.pos q)).
Qed.

(** A string is cut at its last separator in one way only. *)
Lemma last_dash_unique s1 s2 d1 d2 :
  dash_free d1 → dash_free d2 →
  s1 +:+ String "-" d1 = s2 +:+ String "-" d2 → s1 = s2 ∧ d1 = d2.
Proof.
  intros Hd1 Hd2. revert s2.
  assert (∀ s d, ¬ dash_free (s +:+ String "-" d)) as Hno.
  { intros s d. induction s as [|a s IHs].
    - rewrite append_nil. by intros [? _].
    - rewrite append_cons. by intros [_ ?]. }
  induction s1 as [|a s1 IH]; intros [|b s2]; rewrite ?append_nil, ?append_cons;
    intros Heq.
  - by injection Heq as ->.
  - injection Heq as <- ->. by destruct (Hno s2 d2).
  - injection Heq as -> <-. by destruct (Hno s1 d1).
  - injection Heq as -> Heq. by destruct (IH _ Heq) as [-> ->].
Qed.

(** Two identities of one category are equal only if their timestamps and
    their sequence values are. *)
Lemma identity_inj (p : string) (t1 t2 c1 c2 : Z) :
  0 ≤ c1 → 0 ≤ c2 →
  p +:+ "-" +:+ pretty t1 +:+ "-" +:+ pretty c1
  = p +:+ "-" +:+ pretty t2 +:+ "-" +:+ pretty c2 →
  t1 = t2 ∧ c1 = c2.
Proof.
  intros H1 H2 Heq.
  apply (inj (String.append p)) in Heq. injection Heq as Heq.
  change ("-" +:+ pretty c1) with (String "-" (pretty c1)) in Heq.
  change ("-" +:+ pretty c2) with (String "-" (pretty c2)) in Heq.
  apply last_dash_unique in Heq as [Ht Hc]; [|by apply dash_free_pretty_Z..].
  split; by apply (inj pretty).
Qed.

Lemma GenerateUniqueID_count_range st p c now :
  0 ≤ (GenerateUniqueID st p c now).1 < uint64_modulus.
Proof. apply wrap_uint64_range. Qed.

(** One call from two different counter values gives two different
    identities, whatever the clock reads. *)
Lemma GenerateUniqueID_inj st p c1 c2 now1 now2 :
  0 ≤ c1 < uint64_modulus → 0 ≤ c2 < uint64_modulus →
  (GenerateUniqueID st p c1 now1).2 = (GenerateUniqueID st p c2 now2).2 → c1 = c2.
Proof.
  intros Hc1 Hc2 Heq. unfold GenerateUniqueID in Heq. simpl in Heq.
  apply identity_inj in Heq as [_ Heq]; try apply wrap_uint64_range.
  unfold wrap_uint64, uint64_modulus in *.
  destruct (decide (c1 = 2 ^ 64 - 1)) as [->|]; destruct (decide (c2 = 2 ^ 64 - 1)) as [->|];
    try done.
  - rewrite (Z.mod_small (c2 + 1)) in Heq by lia.
    change ((2 ^ 64 - 1 + 1) `mod` 2 ^ 64) with 0 in Heq. lia.
  - rewrite (Z.mod_small (c1 + 1)) in Heq by lia.
    change ((2 ^ 64 - 1 + 1) `mod` 2 ^ 64) with 0 in Heq. lia.
  - rewrite !Z.mod_small in Heq by lia. lia.
Qed.




End identities.

(** ** Executions and invariants *)

Section executions.



(** A property that holds at the start and that every step keeps holds
    after every execution. *)
Lemma exec_invariant (P : State → Prop) :
  (∀ l s s', P s → step l s = Some s' → P s') →
  ∀ tr s s', P s → exec tr s = Some s' → P s'.
Proof.
  intros Hstep tr. induction tr as [|l tr IH]; intros s s' HP Hex; simpl in Hex.
  - by simplify_eq.
  - destruct (step l s) as [s1|] eqn:Hs; simpl in Hex; [|done]. eauto.
Qed.

Lemma total_app w p1 p2 : total w (p1 ++ p2) = total w p1 + total w p2.
Proof. induction p1 as [|g p1 IH]; simpl; lia. Qed.

Lemma total_insert w p i g g' :
  p !! i = Some g → total w (<[i := g']> p) = total w p - w g + w g'.
Proof.
  revert i. induction p as [|h p IH]; intros [|i] Hi; simplify_eq/=; [lia|].
  rewrite (IH i Hi). lia.
Qed.

Lemma total_nonneg w p : (∀ g, 0 ≤ w g) → 0 ≤ total w p.
Proof. intros Hw. induction p as [|g p IH]; simpl; [lia|]. specialize (Hw g). lia. Qed.

Lemma total_zero w p :
  (∀ g, 0 ≤ w g) → total w p = 0 → Forall (λ g, w g = 0) p.
Proof.
  intros Hw. induction p as [|g p IH]; simpl; intros Hz; constructor.
  - pose proof (total_nonneg w p Hw). specialize (Hw g). lia.
  - apply IH. pose proof (total_nonneg w p Hw). specialize (Hw g). lia.
Qed.

Lemma holds_wg_nonneg g : 0 ≤ holds_wg g.
Proof. destruct g as [[]|[]|? []|? []]; simpl; lia. Qed.

End executions.

(** Case analysis of one step of a goroutine. *)
Ltac go_inv H :=
  unfold go_step, accept_goroutine, AcceptConnectionRequests, accept_loop,
    watch_goroutine, startIOThread,
    startCommandHandler, registry_register, registry_unregister,
    GenerateUniqueIOThreadID, GenerateUniqueCommandHandlerID, GenerateUniqueID in H;
  repeat (simplify_option_eq || case_match).

Section goroutine_steps.

Context (o : go_oracle) (g g' : goroutine) (s s' : State) (new : list goroutine).
Hypothesis Hgo : go_step o g s = Some (g', s', new).

Lemma go_step_frame :
  srv s' = srv s ∧ ctx_done s' = ctx_done s ∧ run s' = run s ∧ pool s' = pool s
  ∧ startTime s' = startTime s.
Proof using Hgo. clear -Hgo. go_inv Hgo; done. Qed.

Lemma go_step_wg :
  wg s' = wg s - holds_wg g + holds_wg g' + total holds_wg new.
Proof using Hgo. clear -Hgo. go_inv Hgo; simpl; lia. Qed.

Lemma go_step_kind :
  is_watch g' = is_watch g ∧ is_accept g' = is_accept g
  ∧ total is_watch new = 0 ∧ total is_accept new = 0.
Proof using Hgo. clear -Hgo. go_inv Hgo; done. Qed.

End goroutine_steps.

(** ** The bind path *)

Section bind.

Context (o : BindOracle) (sv sv' : Server) (lg lg' : list event).

(** On success the descriptor is stored, and nothing was closed. *)
Lemma BindAndListen_ok :
  BindAndListen o sv lg = (sv', lg', None) →
  ∃ fd ip4, o_socket o = inl fd ∧ o_ParseIP o (Host sv) = Some ip4
    ∧ sv' = set_serverFD fd sv
    ∧ lg' = SysListen fd (connBacklogSize sv) None
            :: SysBind fd (Port sv)
                 [ip4 !!! 0%nat; ip4 !!! 1%nat; ip4 !!! 2%nat; ip4 !!! 3%nat] None
            :: SysSetNonblock fd None :: SysSetsockoptInt fd None
            :: SysSocket (inl fd) :: lg.
Proof.
  unfold BindAndListen, BindAndListen_body. intros H.
  repeat (case_match; simplify_eq/=); eauto 10.
Qed.

(** On failure the server keeps its fields: serverFD is set on success only. *)
Lemma BindAndListen_err e :
  BindAndListen o sv lg = (sv', lg', Some e) → sv' = sv.
Proof.
  unfold BindAndListen, BindAndListen_body. intros H.
  by repeat (case_match; simplify_eq/=).
Qed.

(** The failure paths, one by one: the socket call failed and there is no
    descriptor; or a later system call failed and the deferred function
    closed the descriptor; or the host did not parse, and the descriptor was
    not closed. *)
Lemma BindAndListen_err_paths e :
  BindAndListen o sv lg = (sv', lg', Some e) →
  (∃ n, o_socket o = inr n ∧ lg' = SysSocket (inr n) :: lg)
  ∨ (∃ fd lg1, o_socket o = inl fd ∧ lg' = SysClose fd (o_close o) :: lg1
       ∧ e ≠ ErrInvalidIPAddress)
  ∨ (∃ fd, o_socket o = inl fd ∧ o_ParseIP o (Host sv) = None
       ∧ e = ErrInvalidIPAddress
       ∧ lg' = SysSetNonblock fd None :: SysSetsockoptInt fd None
               :: SysSocket (inl fd) :: lg).
Proof.
  unfold BindAndListen, BindAndListen_body. intros H.
  repeat (case_match; simplify_eq/=); eauto 10.
Qed.

End bind.

(** Case analysis of one step of [Run]. *)
Ltac bind_inv :=
  match goal with
  | H : BindAndListen _ _ _ = (?sv', _, Some _) |- _ =>
      pose proof (BindAndListen_err _ _ _ _ _ _ H); subst sv'
  | H : BindAndListen _ _ _ = (_, _, None) |- _ =>
      let fd := fresh "fd" in let ip4 := fresh "ip4" in
      destruct (BindAndListen_ok _ _ _ _ _ H) as (fd&ip4&?&?&->&->); clear H
  end.

Ltac run_inv H :=
  unfold Run, Shutdown, ReleasePort in H;
  repeat (case_match || simplify_option_eq); try bind_inv.

Section steps.

(** A step is the cancellation, a step of [Run], or a step of a goroutine
    of the pool. *)
Lemma step_cases l s s' :
  step l s = Some s' →
  (l = LCancel ∧ s' = set_ctx_done true s)
  ∨ (l ≠ LCancel ∧ (∀ i o, l ≠ LGo i o) ∧ Run l s = Some s')
  ∨ (∃ i o g g' s1 new, l = LGo i o ∧ pool s !! i = Some g
       ∧ go_step o g s = Some (g', s1, new)
       ∧ s' = set_pool (<[i := g']> (pool s) ++ new) s1).
Proof.
  intros H. destruct l; simpl in H; simplify_eq; auto;
    try (right; left; split_and!; by auto).
  right; right.
  destruct (pool s !! i) as [g|] eqn:Hg; simpl in H; [|done].
  destruct (go_step o g s) as [[[g' s1] new]|] eqn:Hgo; simpl in H; [|done].
  destruct (go_step_frame _ _ _ _ _ _ Hgo) as (_&_&_&Hp&_).
  rewrite Hp in H. simplify_eq. eauto 10.
Qed.

End steps.

(** ** The wait group and the pool *)

Section counting.

Lemma go_step_idle o g s g' s' new :
  go_step o g s = Some (g', s', new) → holds_wg g = 0 →
  holds_wg g' = 0 ∧ new = [].
Proof. intros Hgo Hg. go_inv Hgo; done. Qed.

Lemma Run_chan l s s' :
  Run l s = Some s' →
  cmdWatchSubscriptionChan (srv s') = cmdWatchSubscriptionChan (srv s).
Proof.
  intros H. run_inv H; done.
Qed.

Lemma fresh_counting s : fresh s → counting s.
Proof.
  intros (Hr&Hp&Hw&_). unfold counting, watch_expected, accept_expected.
  rewrite Hr, Hp, Hw. done.
Qed.

Lemma step_counting l s s' : counting s → step l s = Some s' → counting s'.
Proof.
  intros (Hwg&Hwa&Hac&Hpw) Hstep.
  destruct (step_cases _ _ _ Hstep) as
    [[-> ->]|[(_&_&Hrun)|(i&o&g&g'&s1&new&->&Hi&Hgo&->)]].
  - done.
  - pose proof (Run_chan _ _ _ Hrun) as Hch.
    unfold counting, watch_expected, accept_expected in *.
    rewrite Hch. clear Hch Hstep.
    run_inv Hrun; simpl in *; rewrite ?total_app; simpl;
      rewrite ?Hwa, ?Hac, ?Hwg; repeat case_match; simplify_eq/=;
      split_and!; try (done || lia).
  - destruct (go_step_frame _ _ _ _ _ _ Hgo) as (Hsrv&Hctx&Hr&Hp&_).
    pose proof (go_step_wg _ _ _ _ _ _ Hgo) as Hw.
    destruct (go_step_kind _ _ _ _ _ _ Hgo) as (Hk1&Hk2&Hk3&Hk4).
    unfold counting, watch_expected, accept_expected in *. simpl.
    rewrite !total_app, !(total_insert _ _ _ _ _ Hi), Hsrv, Hr.
    split_and!; try lia.
    intros Hpast. specialize (Hpw Hpast).
    assert (holds_wg g = 0) as Hg.
    { rewrite Hwg in Hpw.
      apply total_zero in Hpw; [|apply holds_wg_nonneg].
      by eapply (Forall_lookup_1 _ _ _ _ Hpw Hi). }
    destruct (go_step_idle _ _ _ _ _ _ Hgo Hg) as [Hg' ->]. simpl in Hw. lia.
Qed.

Lemma exec_counting tr s s' : fresh s → exec tr s = Some s' → counting s'.
Proof.
  intros Hf. apply (exec_invariant counting); [apply step_counting|].
  by apply fresh_counting.
Qed.

End counting.

(** ** The listening socket *)

Section listening_socket.

Lemma closes_cons fd e lg :
  closes fd (e :: lg) = ((if is_close fd e then 1 else 0) + closes fd lg)%nat.
Proof.
  unfold closes. rewrite filter_cons. destruct (is_close fd e); by case_decide.
Qed.

Lemma closes_nil fd : closes fd [] = 0%nat.
Proof. done. Qed.

Lemma go_step_closes o g s g' s' new fd :
  go_step o g s = Some (g', s', new) → closes fd (log s') = closes fd (log s).
Proof. intros Hgo. go_inv Hgo; simpl; by rewrite ?closes_cons. Qed.

(** The log only grows. *)
Lemma go_step_log o g s g' s' new :
  go_step o g s = Some (g', s', new) → ∃ evs, log s' = evs ++ log s.
Proof.
  intros Hgo. go_inv Hgo; simpl;
    first [by exists [] | by eexists [_] | by eexists [_; _]].
Qed.

Lemma fresh_released s : fresh s → released s.
Proof. intros (Hr&Hp&_&_&Hl). unfold released. by rewrite Hr. Qed.

Lemma step_released l s s' : released s → step l s = Some s' → released s'.
Proof.
  intros Hrel Hstep.
  destruct (step_cases _ _ _ Hstep) as
    [[-> ->]|[(_&_&Hrun)|(i&o&g&g'&s1&new&->&Hi&Hgo&->)]].
  - done.
  - clear Hstep. unfold released in *.
    run_inv Hrun; simpl in *; destruct Hrel as [Hin Hcl].
    + rewrite Hin in *. eauto.
    + rewrite Hin. split; [set_solver|]. intros fd'.
      by rewrite !closes_cons.
    + split; [set_solver|]. intros fd'. by rewrite closes_cons, Hcl.
    + done.
    + split; [set_solver|]. intros fd'. by rewrite closes_cons, Hcl.
    + done.
    + done.
    + done.
    + done.
    + split; [set_solver|]. split.
      * rewrite closes_cons, Hcl. simpl. by rewrite bool_decide_eq_true_2.
      * intros fd Hfd. rewrite closes_cons, Hcl. simpl.
        by rewrite bool_decide_eq_false_2.
  - destruct (go_step_frame _ _ _ _ _ _ Hgo) as (Hsrv&Hctx&Hr&Hp&_).
    destruct (go_step_log _ _ _ _ _ _ Hgo) as [evs Hevs].
    pose proof (λ fd, go_step_closes _ _ _ _ _ _ fd Hgo) as Hcl.
    unfold released in *. simpl. rewrite Hsrv, Hr.
    destruct (run s); try (destruct Hrel as [_ Hnil]; by rewrite Hnil in Hi).
    all: setoid_rewrite Hcl; rewrite Hevs;
      destruct Hrel as [Hin ?]; (split; [set_solver|done]).
Qed.

Lemma exec_released tr s s' : fresh s → exec tr s = Some s' → released s'.
Proof.
  intros Hf. apply (exec_invariant released); [apply step_released|].
  by apply fresh_released.
Qed.

End listening_socket.

(** ** What Run returns *)

Section outcome.

Lemma accept_error_mono d e : accept_error d e → accept_error true e.
Proof. intros [[-> _]|[?|?]]; unfold accept_error; auto. Qed.

Lemma accept_returns_mono d g : accept_returns d g → accept_returns true g.
Proof. destruct g as [|[]| |]; simpl; eauto using accept_error_mono. Qed.

Lemma sent_error_mono d e : sent_error d e → sent_error true e.
Proof. intros (e'&->&He). exists e'. eauto using accept_error_mono. Qed.

Lemma go_step_outcome o g s g' s' new :
  go_step o g s = Some (g', s', new) →
  accept_returns (ctx_done s) g →
  accept_returns (ctx_done s) g'
  ∧ Forall (accept_returns (ctx_done s)) new
  ∧ (errChan s' = errChan s
     ∨ errChan s = [] ∧ ∃ e, accept_error (ctx_done s) e
         ∧ errChan s' = [Errorf "failed to accept connections" e]).
Proof.
  intros Hgo Hg. unfold accept_returns, accept_error in *.
  go_inv Hgo; simpl in *; split_and!; eauto 10; repeat constructor.
Qed.

Lemma fresh_outcome s : fresh s → outcome s.
Proof.
  intros (Hr&Hp&_&He&_). unfold outcome. rewrite Hr, Hp, He.
  split_and!; [constructor..|done].
Qed.

Lemma step_outcome l s s' : outcome s → step l s = Some s' → outcome s'.
Proof.
  intros (Hpool&Hchan&Hrun) Hstep.
  destruct (step_cases _ _ _ Hstep) as
    [[-> ->]|[(_&_&Hr)|(i&o&g&g'&s1&new&->&Hi&Hgo&->)]].
  - unfold outcome. simpl. split_and!.
    + eapply Forall_impl; [done|]. apply accept_returns_mono.
    + eapply Forall_impl; [done|]. apply sent_error_mono.
    + intros [e|] Hc; [|done]. eapply sent_error_mono. apply (Hrun _ Hc).
  - clear Hstep. unfold outcome in *.
    run_inv Hr; simpl in *; split_and!; try done.
    all: try (intros r ?; simplify_eq; by apply (Hrun r)).
    all: try (apply Forall_app; split; [done|by repeat constructor]).
    all: try match goal with H : ctx_done _ = true |- _ => rewrite H end; try done.
    + intros r ?; by simplify_eq.
    + by inversion Hchan.
    + intros r ?; simplify_eq. by inversion Hchan.
  - destruct (go_step_frame _ _ _ _ _ _ Hgo) as (Hsrv&Hctx&Hr&Hp&_).
    pose proof (Forall_lookup_1 _ _ _ _ Hpool Hi) as Hg.
    destruct (go_step_outcome _ _ _ _ _ _ Hgo Hg) as (Hg'&Hnew&Hch).
    unfold outcome. simpl. rewrite Hctx, Hr. split_and!.
    + apply Forall_app. split; [by apply Forall_insert|done].
    + destruct Hch as [->|(_&e&He&->)]; [done|].
      repeat constructor. by exists e.
    + done.
Qed.

Lemma exec_outcome tr s s' : fresh s → exec tr s = Some s' → outcome s'.
Proof.
  intros Hf. apply (exec_invariant outcome); [apply step_outcome|].
  by apply fresh_outcome.
Qed.

End outcome.

(** ** The watch manager's goroutine *)

Section watch.

Lemma go_step_watch o g s g' s' new :
  go_step o g s = Some (g', s', new) → ctx_done s = false →
  (is_watch g = 1 → g = GWatchManager WatchRunning) →
  (is_watch g' = 1 → g' = GWatchManager WatchRunning)
  ∧ Forall (λ g, is_watch g = 1 → g = GWatchManager WatchRunning) new.
Proof.
  intros Hgo Hctx Hg. go_inv Hgo; simpl in *; split; try done;
    repeat constructor; try done.
  all: by specialize (Hg eq_refl).
Qed.

Lemma fresh_watch_alive s : fresh s → watch_alive s.
Proof. intros (_&Hp&_) _. rewrite Hp. constructor. Qed.

Lemma step_watch_alive l s s' : watch_alive s → step l s = Some s' → watch_alive s'.
Proof.
  intros Hal Hstep.
  destruct (step_cases _ _ _ Hstep) as
    [[-> ->]|[(_&_&Hr)|(i&o&g&g'&s1&new&->&Hi&Hgo&->)]].
  - intros ?. done.
  - clear Hstep. unfold watch_alive in *.
    run_inv Hr; simpl in *; try done.
    all: intros Hd; try congruence.
    all: apply Forall_app; split; [by apply Hal|].
    all: by repeat first [apply Forall_nil_2 | apply Forall_cons_2].
  - destruct (go_step_frame _ _ _ _ _ _ Hgo) as (Hsrv&Hctx&Hr&Hp&_).
    unfold watch_alive in *. simpl. rewrite Hctx. intros Hd.
    specialize (Hal Hd).
    pose proof (Forall_lookup_1 _ _ _ _ Hal Hi) as Hg.
    destruct (go_step_watch _ _ _ _ _ _ Hgo Hd Hg) as [Hg' Hnew].
    apply Forall_app. split; [by apply Forall_insert|done].
Qed.

Lemma exec_watch_alive tr s s' : fresh s → exec tr s = Some s' → watch_alive s'.
Proof.
  intros Hf. apply (exec_invariant watch_alive); [apply step_watch_alive|].
  by apply fresh_watch_alive.
Qed.

End watch.

(** ** Registration before start *)

Section registration.

Lemma wiring_mono (lg lg' : list event) g : lg ⊆ lg' → wiring lg g → wiring lg' g.
Proof. intros Hsub. destruct g as [|[]| |]; simpl; set_solver. Qed.

Lemma BindAndListen_pairs o sv lg sv' lg' r :
  BindAndListen o sv lg = (sv', lg', r) →
  lg ⊆ lg' ∧ (started_in_pairs lg → started_in_pairs lg').
Proof.
  unfold BindAndListen, BindAndListen_body. intros H.
  repeat (case_match; simplify_eq/=); split; (set_solver || done).
Qed.

Lemma go_step_registered o g s g' s' new :
  go_step o g s = Some (g', s', new) →
  started_in_pairs (log s) → wiring (log s) g →
  log s ⊆ log s' ∧ started_in_pairs (log s') ∧ wiring (log s') g'
  ∧ Forall (wiring (log s')) new.
Proof.
  intros Hgo Hp Hw.
  go_inv Hgo; simpl in *; split_and!; try (set_solver || done).
  all: by repeat first [apply Forall_nil_2 | apply Forall_cons_2].
Qed.

Lemma fresh_registered s : fresh s → registered s.
Proof. intros (_&Hp&_&_&Hl). unfold registered. rewrite Hp, Hl. by split. Qed.

Lemma step_registered l s s' : registered s → step l s = Some s' → registered s'.
Proof.
  intros [Hpairs Hwire] Hstep.
  destruct (step_cases _ _ _ Hstep) as
    [[-> ->]|[(_&_&Hr)|(i&o&g&g'&s1&new&->&Hi&Hgo&->)]].
  - done.
  - clear Hstep. unfold registered in *.
    unfold Run, Shutdown, ReleasePort in Hr.
    repeat (case_match || simplify_option_eq); simpl in *; try done.
    1,2: match goal with H : BindAndListen _ _ _ = _ |- _ =>
           destruct (BindAndListen_pairs _ _ _ _ _ _ H) as [Hsub Hp] end;
         (split; [by apply Hp|]);
         (eapply Forall_impl; [done|]); intros g; by apply wiring_mono.
    all: split; [done|]; rewrite ?Forall_app; try split;
      try by repeat first [apply Forall_nil_2 | apply Forall_cons_2].
    all: (eapply Forall_impl; [done|]); intros g; apply wiring_mono; set_solver.
  - destruct (go_step_frame _ _ _ _ _ _ Hgo) as (Hsrv&Hctx&Hr&Hp&_).
    pose proof (Forall_lookup_1 _ _ _ _ Hwire Hi) as Hg.
    destruct (go_step_registered _ _ _ _ _ _ Hgo Hpairs Hg) as (Hsub&Hp'&Hg'&Hnew).
    unfold registered. simpl. split; [done|].
    apply Forall_app. split; [|done]. apply Forall_insert; [|done].
    eapply Forall_impl; [done|]. intros g0. by apply wiring_mono.
Qed.

Lemma exec_registered tr s s' : fresh s → exec tr s = Some s' → registered s'.
Proof.
  intros Hf. apply (exec_invariant registered); [apply step_registered|].
  by apply fresh_registered.
Qed.

End registration.

(** ** Run can always return *)

Section progress.



Lemma is_accept_nonneg g : 0 ≤ is_accept g.
Proof. destruct g; simpl; lia. Qed.

Lemma not_accept_has_sent g : is_accept g = 0 → has_sent g.
Proof. by destruct g. Qed.



(** In a pool with one accept goroutine, replacing it leaves none. *)
Lemma only_accept p i g g0 :
  total is_accept p ≤ 1 → p !! i = Some g → is_accept g = 1 → is_accept g0 = 0 →
  Forall (λ g2, is_accept g2 = 0) (<[i := g0]> p).
Proof.
  intros Hle Hi Hg Hg0. apply total_zero; [apply is_accept_nonneg|].
  rewrite (total_insert _ _ _ _ _ Hi), Hg, Hg0.
  pose proof (total_nonneg is_accept (<[i := g0]> p) is_accept_nonneg) as Hnn.
  rewrite (total_insert _ _ _ _ _ Hi), Hg, Hg0 in Hnn. lia.
Qed.

Lemma go_step_unsent o g s g' s' new :
  go_step o g s = Some (g', s', new) →
  (errChan s' = errChan s ∧ (has_sent g → has_sent g') ∧ Forall has_sent new)
  ∨ (is_accept g = 1 ∧ has_sent g' ∧ new = []).
Proof.
  intros Hgo. go_inv Hgo; simpl; auto.
  all: left; split_and!; try done.
  all: by repeat first [apply Forall_nil_2 | apply Forall_cons_2].
Qed.

Lemma fresh_unsent s : fresh s → unsent s.
Proof. intros (_&_&_&He&_). unfold unsent. rewrite He. auto. Qed.

Lemma step_unsent l s s' :
  counting s → unsent s → step l s = Some s' → unsent s'.
Proof.
  intros (_&_&Hacc&_) [Hpre Hsent] Hstep.
  destruct (step_cases _ _ _ Hstep) as
    [[-> ->]|[(_&_&Hr)|(i&o&g&g'&s1&new&->&Hi&Hgo&->)]].
  - done.
  - clear Hstep. unfold unsent in *.
    run_inv Hr; simpl in *; try (split; [done|by auto]).
    split; [done|]. destruct Hsent as [?|?]; [done|by right].
  - destruct (go_step_frame _ _ _ _ _ _ Hgo) as (Hsrv&Hctx&Hr&Hp&_).
    unfold unsent in *. simpl. rewrite Hr.
    destruct (go_step_unsent _ _ _ _ _ _ Hgo) as [(Hch&Hgg&Hnew)|(Hg&Hg'&->)].
    + rewrite Hch. split; [done|]. destruct Hsent as [?|Hall]; [by left|right].
      apply Forall_app. split; [|done]. apply Forall_insert; [done|].
      apply Hgg. by eapply (Forall_lookup_1 _ _ _ _ Hall Hi).
    + assert (past_go_accept (run s) = true) as Hpast.
      { unfold accept_expected in Hacc.
        destruct (past_go_accept (run s)); [done|].
        apply total_zero in Hacc; [|apply is_accept_nonneg].
        pose proof (Forall_lookup_1 _ _ _ _ Hacc Hi) as Hz. simpl in Hz. lia. }
      split; [by rewrite Hpast|]. right. rewrite app_nil_r.
      rewrite <-(list_insert_insert_eq _ _ _ (GWatchManager WatchDone)).
      apply Forall_insert; [|done].
      eapply Forall_impl; [|apply not_accept_has_sent].
      eapply only_accept; [|done..].
      unfold accept_expected in Hacc. rewrite Hacc. by case_match.
Qed.











Lemma exec_unsent tr s s' : fresh s → exec tr s = Some s' → unsent s'.
Proof.
  intros Hf Hex.
  cut (counting s' ∧ unsent s'); [by intros [_ ?]|].
  apply (exec_invariant (λ x, counting x ∧ unsent x) ) with (tr := tr) (s := s);
    [|by auto using fresh_counting, fresh_unsent|done].
  intros l x y [Hc Hu] Hs. split; [by eapply step_counting|by eapply step_unsent].
Qed.


End progress.

(** * The specification, statement by statement *)

Section specification.

Lemma step_chan l s s' :
  step l s = Some s' →
  cmdWatchSubscriptionChan (srv s') = cmdWatchSubscriptionChan (srv s).
Proof.
  intros Hstep.
  destruct (step_cases _ _ _ Hstep) as
    [[-> ->]|[(_&_&Hr)|(i&o&g&g'&s1&new&->&Hi&Hgo&->)]]; [done|..].
  - exact (Run_chan _ _ _ Hr).
  - simpl. by destruct (go_step_frame _ _ _ _ _ _ Hgo) as (->&_).
Qed.

Lemma exec_chan tr s s' :
  exec tr s = Some s' →
  cmdWatchSubscriptionChan (srv s') = cmdWatchSubscriptionChan (srv s).
Proof.
  apply (exec_invariant
           (λ x, cmdWatchSubscriptionChan (srv x) = cmdWatchSubscriptionChan (srv s)));
    [|done].
  intros l s1 s2 <- Hs. exact (step_chan _ _ _ Hs).
Qed.

(** C1: Run returns while the two workers of a served connection are still
    inside Start and still registered, after a cancellation as after a fatal
    accept error: startIOThread and startCommandHandler call wg.Done on
    entry, so the wg.Wait of line 116 does not wait for them. *)
Theorem C1_workers_still_registered_when_Run_returns :
  (∃ s, exec trace_orphans (demo_state None ∅ ∅) = Some s
     ∧ run s = RunReturned None
     ∧ ioThreads s !! "I-0-1" = Some (mkIOThread "I-0-1" 4)
     ∧ cmdHandlers s !! "C-0-1" = Some (mkCommandHandler "C-0-1")
     ∧ pool s = [ GAccept (AccDone Canceled);
                  GIOThread (mkIOThread "I-0-1" 4) WorkerStart;
                  GCommandHandler (mkCommandHandler "C-0-1") WorkerStart ])
  ∧ (∃ s, exec trace_orphans_fatal (demo_state None ∅ ∅) = Some s
     ∧ run s = RunReturned
                 (Some (Errorf "failed to accept connections"
                          (Errorf "error accepting connection" (Errno 24))))
     ∧ ioThreads s !! "I-0-1" = Some (mkIOThread "I-0-1" 4)
     ∧ cmdHandlers s !! "C-0-1" = Some (mkCommandHandler "C-0-1")
     ∧ pool s = [ GAccept (AccDone (Errorf "error accepting connection" (Errno 24)));
                  GIOThread (mkIOThread "I-0-1" 4) WorkerStart;
                  GCommandHandler (mkCommandHandler "C-0-1") WorkerStart ]).
Proof.
  split; (eexists; split; [vm_compute; reflexivity|]); by vm_compute.
Qed.

(** The second way to the same end: the io-thread is registered, the
    command handler is refused, the loop goes on, and nothing ever removes
    the io-thread from its registry. *)
Lemma half_wired_io_thread_stays_registered :
  ∃ s, exec trace_half_wired (demo_state None ∅ taken_cmd) = Some s
    ∧ run s = RunReturned None
    ∧ pool s = [GAccept (AccDone Canceled)]
    ∧ ioThreads s !! "I-0-1" = Some (mkIOThread "I-0-1" 4).
Proof. eexists. split; [vm_compute; reflexivity|]. by vm_compute. Qed.

(** A refused registration sends the accept goroutine back to the top of
    its loop; it logs the refusal and changes nothing else. *)
Lemma refused_registration_step s i g :
  pool s !! i = Some g → registration_fails s g →
  step (LGo i OStep) s
  = Some (set_log (refusal g ++ log s) (set_pool (<[i := GAccept AccLoop]> (pool s)) s)).
Proof.
  intros Hi Hf. unfold step. rewrite Hi. simpl.
  destruct g as [|[]| |]; simpl in Hf; try done; destruct Hf as [x Hx];
    simpl; unfold registry_register; rewrite Hx; simpl;
    rewrite app_nil_r; by destruct s.
Qed.

(** C2, as the code has it: in every execution workers are started in
    pairs and only after both registrations of the pair succeeded; a
    refused registration starts nothing and closes nothing: the accept
    goroutine logs the refusal and is back at the top of its loop. *)
Theorem C2_workers_start_only_after_both_registrations
    (s0 : State) (tr : list label) (s : State) (i : nat) (g : goroutine) :
  fresh s0 → exec tr s0 = Some s →
  pool s !! i = Some g → registration_fails s g →
  started_in_pairs (log s)
  ∧ ∃ s', step (LGo i OStep) s = Some s'
      ∧ pool s' = <[i := GAccept AccLoop]> (pool s)
      ∧ log s' = refusal g ++ log s
      ∧ (∀ fd, closes fd (log s') = closes fd (log s))
      ∧ (∀ fd, fd_open fd (log s') = fd_open fd (log s))
      ∧ wg s' = wg s
      ∧ started_in_pairs (log s').
Proof.
  intros Hf Hex Hi Hfail.
  destruct (exec_registered _ _ _ Hf Hex) as [Hpairs _].
  split; [done|]. eexists. split; [by apply refused_registration_step|].
  simpl. split_and!; try done.
  - intros fd. destruct g as [|[]| |]; simpl; by rewrite ?closes_cons.
  - intros fd. by destruct g as [|[]| |].
  - by destruct g as [|[]| |].
Qed.

Lemma C2_workers_start_only_after_both_registrations_witness :
  ∃ s, exec (take 5 trace_half_wired) (demo_state None ∅ taken_cmd) = Some s
    ∧ started_in_pairs (log s)
    ∧ ∃ s', step (LGo 0 OStep) s = Some s'
        ∧ pool s' = <[0%nat := GAccept AccLoop]> (pool s)
        ∧ log s' = refusal (GAccept (AccRegisterCommandHandler
                      (mkConn (mkIOThread "I-0-1" 4) (mkCommandHandler "C-0-1"))))
                   ++ log s
        ∧ (∀ fd, closes fd (log s') = closes fd (log s))
        ∧ (∀ fd, fd_open fd (log s') = fd_open fd (log s))
        ∧ wg s' = wg s
        ∧ started_in_pairs (log s').
Proof.
  eexists. split; [vm_compute; reflexivity|].
  apply (C2_workers_start_only_after_both_registrations
           (demo_state None ∅ taken_cmd) (take 5 trace_half_wired) _ 0).
  - by repeat split.
  - vm_compute; reflexivity.
  - reflexivity.
  - vm_compute. by eexists.
Defined.

(** C2, as stated, fails: the registration of the io-thread of the client
    on descriptor 4 is refused, and when Run has returned and every
    goroutine has finished that descriptor has never been closed. *)
Lemma C2_refused_connection_is_not_closed :
  ∃ s, exec trace_refused (demo_state None taken_io ∅) = Some s
    ∧ run s = RunReturned None
    ∧ pool s = [GAccept (AccDone Canceled)]
    ∧ EvRegisterIOThread (mkIOThread "I-0-1" 4) (Some (ErrDuplicateID "I-0-1")) ∈ log s
    ∧ closes 4 (log s) = 0%nat
    ∧ fd_open 4 (log s) = true.
Proof.
  eexists. split; [vm_compute; reflexivity|].
  split_and!; try by vm_compute. set_solver.
Qed.

(** A worker whose Start returns, with an error or without, moves on to its
    deferred calls; nothing else in the process changes. *)
Lemma worker_stop_step s i g r :
  pool s !! i = Some g → worker_running g →
  step (LGo i (OStart r)) s = Some (set_pool (<[i := worker_stopped r g]> (pool s)) s).
Proof.
  intros Hi Hw. unfold step. rewrite Hi. simpl.
  destruct g as [| |t []|h []]; simpl in Hw; try done; simpl;
    rewrite app_nil_r; by destruct s.
Qed.

(** A failed I/O handler ends the accept loop with the handler's error. *)
Lemma io_handler_failure_step s i fd e now_io now_cmd :
  pool s !! i = Some (GAccept AccLoop) → ctx_done s = false →
  step (LGo i (OAccept (inl fd) (Some e) now_io now_cmd)) s
  = Some (emit (SysAccept (serverFD (srv s)) (inl fd))
            (set_pool (<[i := GAccept (AccReturned (ErrIOHandler e))]> (pool s)) s)).
Proof.
  intros Hi Hd. unfold step. rewrite Hi. simpl. unfold accept_loop. rewrite Hd.
  simpl. rewrite app_nil_r. by destruct s.
Qed.

(** C3, as the code has it: what Run returns after its select took the
    error channel wraps an error of the accept loop itself (the context's, a
    fatal accept error, or a failed I/O handler), never a registration
    error or a worker's error: a refused registration puts the accept
    goroutine back at the top of its loop and a worker whose Start returns
    an error only moves that worker, both leaving the error channel and Run
    alone; but a failed I/O handler ends the accept loop with that error. *)
Theorem C3_which_connection_failures_escalate
    (s0 : State) (tr : list label) (s : State) :
  fresh s0 → exec tr s0 = Some s →
  (∀ e, run s = RunReturned (Some e) → sent_error (ctx_done s) e)
  ∧ (∀ i g, pool s !! i = Some g → registration_fails s g →
       ∃ s', step (LGo i OStep) s = Some s'
         ∧ pool s' = <[i := GAccept AccLoop]> (pool s)
         ∧ errChan s' = errChan s ∧ run s' = run s ∧ ctx_done s' = ctx_done s)
  ∧ (∀ i g e, pool s !! i = Some g → worker_running g →
       step (LGo i (OStart (Some e))) s
       = Some (set_pool (<[i := worker_stopped (Some e) g]> (pool s)) s))
  ∧ (∀ i fd e now_io now_cmd,
       pool s !! i = Some (GAccept AccLoop) → ctx_done s = false →
       ∃ s', step (LGo i (OAccept (inl fd) (Some e) now_io now_cmd)) s = Some s'
         ∧ pool s' = <[i := GAccept (AccReturned (ErrIOHandler e))]> (pool s)).
Proof.
  intros Hf Hex. destruct (exec_outcome _ _ _ Hf Hex) as (_&_&Hout).
  split_and!.
  - intros e He. apply (Hout (Some e)). by rewrite He.
  - intros i g Hi Hfail. eexists.
    split; [by apply refused_registration_step|]. done.
  - intros i g e Hi Hw. by apply worker_stop_step.
  - intros i fd e n1 n2 Hi Hd. eexists.
    split; [by apply io_handler_failure_step|]. done.
Qed.

Lemma C3_which_connection_failures_escalate_witness :
  ∃ s, exec trace_io_handler_failure (demo_state None ∅ ∅) = Some s
  ∧ (∀ e, run s = RunReturned (Some e) → sent_error (ctx_done s) e)
  ∧ (∀ i g, pool s !! i = Some g → registration_fails s g →
       ∃ s', step (LGo i OStep) s = Some s'
         ∧ pool s' = <[i := GAccept AccLoop]> (pool s)
         ∧ errChan s' = errChan s ∧ run s' = run s ∧ ctx_done s' = ctx_done s)
  ∧ (∀ i g e, pool s !! i = Some g → worker_running g →
       step (LGo i (OStart (Some e))) s
       = Some (set_pool (<[i := worker_stopped (Some e) g]> (pool s)) s))
  ∧ (∀ i fd e now_io now_cmd,
       pool s !! i = Some (GAccept AccLoop) → ctx_done s = false →
       ∃ s', step (LGo i (OAccept (inl fd) (Some e) now_io now_cmd)) s = Some s'
         ∧ pool s' = <[i := GAccept (AccReturned (ErrIOHandler e))]> (pool s)).
Proof.
  eexists. split; [vm_compute; reflexivity|].
  apply (C3_which_connection_failures_escalate
           (demo_state None ∅ ∅) trace_io_handler_failure).
  - by repeat split.
  - vm_compute; reflexivity.
Defined.

(** C3, as stated, fails: the I/O handler cannot be created for the one
    client that connects; nobody cancels the context, and Run shuts the
    server down and returns that client's error. *)
Lemma C3_io_handler_failure_stops_the_server :
  ∃ s, exec trace_io_handler_failure (demo_state None ∅ ∅) = Some s
    ∧ ctx_done s = false
    ∧ pool s = [GAccept (AccDone (ErrIOHandler 1))]
    ∧ run s = RunReturned (Some (Errorf "failed to accept connections" (ErrIOHandler 1))).
Proof. eexists. split; [vm_compute; reflexivity|]. by vm_compute. Qed.

(** C4, as the code has it: the pool holds one watch-manager goroutine once
    Run is past line 97 if the server has a watch-subscription channel, and
    none before that or without the channel; the goroutine is inside
    watchManager.Run as long as the context is not done, and it has
    finished when Run has returned. *)
Theorem C4_watch_manager_goroutine
    (s0 : State) (tr : list label) (s : State) :
  fresh s0 → exec tr s0 = Some s →
  (cmdWatchSubscriptionChan (srv s0) = None → total is_watch (pool s) = 0)
  ∧ (is_Some (cmdWatchSubscriptionChan (srv s0)) →
       total is_watch (pool s) = if past_go_watch (run s) then 1 else 0)
  ∧ (ctx_done s = false →
       Forall (λ g, is_watch g = 1 → g = GWatchManager WatchRunning) (pool s))
  ∧ (∀ r, run s = RunReturned r →
       Forall (λ g, is_watch g = 1 → g = GWatchManager WatchDone) (pool s)).
Proof.
  intros Hf Hex.
  destruct (exec_counting _ _ _ Hf Hex) as (Hwg&Hwa&_&Hpw).
  pose proof (exec_chan _ _ _ Hex) as Hch.
  unfold watch_expected in Hwa. rewrite Hch in Hwa. split_and!.
  - intros Hn. rewrite Hn in Hwa. by destruct (past_go_watch (run s)).
  - intros [c Hc]. by rewrite Hc in Hwa.
  - by apply (exec_watch_alive _ _ _ Hf Hex).
  - intros r Hr. rewrite Hr in Hpw. specialize (Hpw eq_refl). rewrite Hwg in Hpw.
    apply total_zero in Hpw; [|apply holds_wg_nonneg].
    eapply Forall_impl; [done|]. by intros [[]| | |].
Qed.

Lemma C4_watch_manager_goroutine_witness :
  ∃ s, exec trace_cancel_error (demo_state (Some 7%positive) ∅ ∅) = Some s
  ∧ (cmdWatchSubscriptionChan (srv (demo_state (Some 7%positive) ∅ ∅)) = None →
       total is_watch (pool s) = 0)
  ∧ (is_Some (cmdWatchSubscriptionChan (srv (demo_state (Some 7%positive) ∅ ∅))) →
       total is_watch (pool s) = if past_go_watch (run s) then 1 else 0)
  ∧ (ctx_done s = false →
       Forall (λ g, is_watch g = 1 → g = GWatchManager WatchRunning) (pool s))
  ∧ (∀ r, run s = RunReturned r →
       Forall (λ g, is_watch g = 1 → g = GWatchManager WatchDone) (pool s)).
Proof.
  eexists. split; [vm_compute; reflexivity|].
  apply (C4_watch_manager_goroutine (demo_state (Some 7%positive) ∅ ∅) trace_cancel_error).
  - by repeat split.
  - vm_compute; reflexivity.
Defined.

(** C4, as stated, fails: a server built without a watch-subscription
    channel binds, serves, is cancelled and returns, and no watch-manager
    goroutine was ever started. *)
Lemma C4_no_watch_manager_without_channel :
  ∃ s, exec trace_cancel (demo_state None ∅ ∅) = Some s
    ∧ run s = RunReturned None
    ∧ total is_watch (pool s) = 0
    ∧ EvGoWatchManager ∉ log s.
Proof.
  eexists. split; [vm_compute; reflexivity|].
  split_and!; try by vm_compute. set_solver.
Qed.




(** On every failure path but one [BindAndListen] holds no descriptor when
    it returns: there is none, or its last call closed the one it made. *)
Lemma BindAndListen_failure_releases o sv lg sv' lg' e :
  BindAndListen o sv lg = (sv', lg', Some e) → e ≠ ErrInvalidIPAddress →
  sv' = sv
  ∧ ((∃ n, o_socket o = inr n ∧ lg' = SysSocket (inr n) :: lg)
     ∨ (∃ fd lg1, o_socket o = inl fd ∧ lg' = SysClose fd (o_close o) :: lg1)).
Proof.
  intros Hb Hne. split; [by eapply BindAndListen_err|].
  destruct (BindAndListen_err_paths _ _ _ _ _ _ Hb) as
    [?|[(fd&lg1&?&?&_)|(?&_&_&?&_)]]; eauto.
  done.
Qed.

(** The one: the host does not parse. *)
Lemma BindAndListen_invalid_host_leaks o sv lg fd :
  o_socket o = inl fd → o_setsockopt o = None → o_setnonblock o = None →
  o_ParseIP o (Host sv) = None →
  BindAndListen o sv lg
  = (sv, SysSetNonblock fd None :: SysSetsockoptInt fd None :: SysSocket (inl fd) :: lg,
     Some ErrInvalidIPAddress)
  ∧ fd_open fd (SysSetNonblock fd None :: SysSetsockoptInt fd None
                :: SysSocket (inl fd) :: lg) = true.
Proof.
  intros Hs Ho Hn Hp. unfold BindAndListen, BindAndListen_body.
  rewrite Hs, Ho, Hn, Hp. split; [done|]. simpl. by rewrite decide_True.
Qed.

(** C7: with a host that is not an IP address every system call succeeds,
    socket returns descriptor 3, and [BindAndListen] returns
    ErrInvalidIPAddress with the server unchanged and descriptor 3 still
    open: no close was issued, because the return at line 151 does not
    assign the variable [err] the deferred function reads. *)
Theorem C7_invalid_host_leaves_the_socket_open :
  BindAndListen (bind_ok 3) bad_host_server []
  = (bad_host_server,
     [SysSetNonblock 3 None; SysSetsockoptInt 3 None; SysSocket (inl 3)],
     Some ErrInvalidIPAddress)
  ∧ closes 3 (BindAndListen (bind_ok 3) bad_host_server []).1.2 = 0%nat
  ∧ fd_open 3 (BindAndListen (bind_ok 3) bad_host_server []).1.2 = true.
Proof. by vm_compute. Qed.

Lemma is_would_block_spec e :
  is_would_block e = true ↔ Errno e = EAGAIN ∨ Errno e = EWOULDBLOCK.
Proof.
  unfold is_would_block, EAGAIN, EWOULDBLOCK. simpl.
  destruct (decide (Errno e = Errno 11)); simpl; naive_solver.
Qed.

(** C8: when the context is not done and accept fails, the accept goroutine
    stays at the top of its loop with nothing but the call logged if the
    error is EAGAIN or EWOULDBLOCK, and otherwise AcceptConnectionRequests
    returns the error, wrapped, to its caller. *)
Theorem C8_would_block_retries_other_errors_return
    (s : State) (i : nat) (e : Z) (h : option Z) (now_io now_cmd : Z) :
  pool s !! i = Some (GAccept AccLoop) → ctx_done s = false →
  step (LGo i (OAccept (inr e) h now_io now_cmd)) s
  = Some (if decide (Errno e = EAGAIN ∨ Errno e = EWOULDBLOCK)
          then emit (SysAccept (serverFD (srv s)) (inr e)) s
          else emit (SysAccept (serverFD (srv s)) (inr e))
                 (set_pool
                    (<[i := GAccept (AccReturned
                                       (Errorf "error accepting connection" (Errno e)))]>
                       (pool s)) s)).
Proof.
  intros Hi Hd. unfold step. rewrite Hi. simpl. unfold accept_loop. rewrite Hd.
  pose proof (is_would_block_spec e) as Hwb.
  destruct (is_would_block e); case_decide as Hc; simpl.
  - rewrite app_nil_r, list_insert_id by done. by destruct s.
  - destruct Hc. by apply Hwb.
  - apply Hwb in Hc. done.
  - rewrite app_nil_r. by destruct s.
Qed.

Lemma C8_would_block_retries_other_errors_return_witness :
  ∃ s, exec (take 3 trace_fatal_accept) (demo_state None ∅ ∅) = Some s
  ∧ step (LGo 0 (OAccept (inr 11) None 0 0)) s
    = Some (if decide (Errno 11 = EAGAIN ∨ Errno 11 = EWOULDBLOCK)
            then emit (SysAccept (serverFD (srv s)) (inr 11)) s
            else emit (SysAccept (serverFD (srv s)) (inr 11))
                   (set_pool
                      (<[0%nat := GAccept (AccReturned
                                    (Errorf "error accepting connection" (Errno 11)))]>
                         (pool s)) s)).
Proof.
  eexists. split; [vm_compute; reflexivity|].
  apply (C8_would_block_retries_other_errors_return _ 0 11 None 0 0); reflexivity.
Defined.







End specification.

(** * Further properties of the code *)

Section bind_path.

(** X1: [BindAndListen] returns nil exactly when the socket call, the two
    option calls, bind and listen all succeed and the host parses: any one
    failure makes it return an error. *)
Theorem BindAndListen_nil_iff (o : BindOracle) (sv : Server) (lg : list event) :
  (BindAndListen o sv lg).2 = None ↔ all_succeed o sv.
Proof.
  unfold BindAndListen, BindAndListen_body, all_succeed. split.
  - intros H. repeat (case_match; simplify_eq/=); split_and!; eauto.
  - intros ([fd Hs]&Ho&Hn&[ip Hip]&Hb&Hl). by rewrite Hs, Ho, Hn, Hip, Hb, Hl.
Qed.

(** X2: when [BindAndListen] fails with anything but the invalid-address
    error, the server's fields are unchanged and no descriptor is left
    open by the call: either socket failed and none was made, or the last
    call issued is the close of the descriptor socket returned. *)
Theorem BindAndListen_failure_cleans_up
    (o : BindOracle) (sv sv' : Server) (lg lg' : list event) (e : error) :
  BindAndListen o sv lg = (sv', lg', Some e) → e ≠ ErrInvalidIPAddress →
  sv' = sv
  ∧ ((∃ n, o_socket o = inr n ∧ lg' = SysSocket (inr n) :: lg)
     ∨ (∃ fd lg1, o_socket o = inl fd ∧ lg' = SysClose fd (o_close o) :: lg1
          ∧ SysSocket (inl fd) ∈ lg1 ∧ fd_open fd lg' = false)).
Proof.
  intros Hb Hne. split; [by eapply BindAndListen_err|].
  unfold BindAndListen, BindAndListen_body in Hb.
  repeat (case_match; simplify_eq/=); try done; [right..|left; eauto].
  all: eexists _, _; split_and!; [done..|set_solver|simpl; by rewrite decide_True].
Qed.

Lemma BindAndListen_failure_cleans_up_witness :
  (BindAndListen (bind_in_use 3) (demo_server None) []).1.1 = demo_server None
  ∧ ((∃ n, o_socket (bind_in_use 3) = inr n
          ∧ (BindAndListen (bind_in_use 3) (demo_server None) []).1.2
            = SysSocket (inr n) :: [])
     ∨ (∃ fd lg1, o_socket (bind_in_use 3) = inl fd
          ∧ (BindAndListen (bind_in_use 3) (demo_server None) []).1.2
            = SysClose fd (o_close (bind_in_use 3)) :: lg1
          ∧ SysSocket (inl fd) ∈ lg1
          ∧ fd_open fd (BindAndListen (bind_in_use 3) (demo_server None) []).1.2
            = false)).
Proof.
  apply (BindAndListen_failure_cleans_up (bind_in_use 3) (demo_server None) _ [] _
           (Errorf "failed to bind socket" (Errno 98))).
  - vm_compute. reflexivity.
  - discriminate.
Defined.

(** X3: [BindAndListen] hands bind the first four bytes of what net.ParseIP
    returned; when that is the 16-byte form of an IPv4 address a.b.c.d those
    bytes are zero, so the socket is bound to 0.0.0.0 on the configured
    port, whatever a.b.c.d is. *)
Theorem BindAndListen_binds_first_four_bytes
    (o : BindOracle) (sv : Server) (lg : list event) (fd a b c d : Z) :
  o_socket o = inl fd → o_setsockopt o = None → o_setnonblock o = None →
  o_ParseIP o (Host sv) = Some (ipv4_in_16 a b c d) →
  SysBind fd (Port sv) [0; 0; 0; 0] (o_bind o) ∈ (BindAndListen o sv lg).1.2
  ∧ ∀ addr r, SysBind fd (Port sv) addr r ∈ (BindAndListen o sv lg).1.2 →
      SysBind fd (Port sv) addr r ∈ lg ∨ addr = [0; 0; 0; 0].
Proof.
  intros Hs Ho Hn Hip. unfold BindAndListen, BindAndListen_body.
  rewrite Hs, Ho, Hn, Hip. simpl.
  destruct (o_bind o), (o_listen o); simpl; split; try set_solver.
Qed.

Lemma BindAndListen_binds_first_four_bytes_witness :
  SysBind 3 (Port (demo_server None)) [0; 0; 0; 0] (o_bind (bind_loopback 3))
    ∈ (BindAndListen (bind_loopback 3) (demo_server None) []).1.2
  ∧ ∀ addr r,
      SysBind 3 (Port (demo_server None)) addr r
        ∈ (BindAndListen (bind_loopback 3) (demo_server None) []).1.2 →
      SysBind 3 (Port (demo_server None)) addr r ∈ [] ∨ addr = [0; 0; 0; 0].
Proof.
  apply (BindAndListen_binds_first_four_bytes
           (bind_loopback 3) (demo_server None) [] 3 127 0 0 1); reflexivity.
Defined.

(** X4: a successful [BindAndListen] followed by [ReleasePort] leaves the
    descriptor it made closed: it is open in between, and ReleasePort adds
    exactly one close of it. *)
Theorem BindAndListen_then_ReleasePort
    (o : BindOracle) (sv sv' : Server) (lg lg' : list event) (r : option Z) :
  BindAndListen o sv lg = (sv', lg', None) →
  o_socket o = inl (serverFD sv')
  ∧ fd_open (serverFD sv') lg' = true
  ∧ fd_open (serverFD sv') (ReleasePort r sv' lg') = false
  ∧ closes (serverFD sv') (ReleasePort r sv' lg') = S (closes (serverFD sv') lg).
Proof.
  intros Hb. destruct (BindAndListen_ok _ _ _ _ _ Hb) as (fd&ip&Hs&_&->&->).
  simpl. unfold ReleasePort. rewrite !closes_cons. simpl.
  rewrite !decide_True, bool_decide_eq_true_2 by done. done.
Qed.

Lemma BindAndListen_then_ReleasePort_witness :
  o_socket (bind_ok 3) = inl (serverFD (set_serverFD 3 (demo_server None)))
  ∧ fd_open (serverFD (set_serverFD 3 (demo_server None)))
      (BindAndListen (bind_ok 3) (demo_server None) []).1.2 = true
  ∧ fd_open (serverFD (set_serverFD 3 (demo_server None)))
      (ReleasePort None (set_serverFD 3 (demo_server None))
         (BindAndListen (bind_ok 3) (demo_server None) []).1.2) = false
  ∧ closes (serverFD (set_serverFD 3 (demo_server None)))
      (ReleasePort None (set_serverFD 3 (demo_server None))
         (BindAndListen (bind_ok 3) (demo_server None) []).1.2)
    = S (closes (serverFD (set_serverFD 3 (demo_server None))) []).
Proof.
  apply (BindAndListen_then_ReleasePort (bind_ok 3) (demo_server None)).
  vm_compute. reflexivity.
Defined.

End bind_path.

Section identity_format.

(** X5: an identity tells its category, its timestamp and its sequence
    number: an io-thread identity never equals a command-handler identity,
    and two identities of one category are equal exactly when their
    timestamps and their sequence numbers are. *)
Theorem identity_determines_its_parts (st c1 c2 now1 now2 : Z) :
  (GenerateUniqueIOThreadID st c1 now1).2 ≠ (GenerateUniqueCommandHandlerID st c2 now2).2
  ∧ ((GenerateUniqueIOThreadID st c1 now1).2 = (GenerateUniqueIOThreadID st c2 now2).2
     ↔ wrap_int64 (now1 - st) = wrap_int64 (now2 - st)
       ∧ (GenerateUniqueIOThreadID st c1 now1).1 = (GenerateUniqueIOThreadID st c2 now2).1)
  ∧ ((GenerateUniqueCommandHandlerID st c1 now1).2
     = (GenerateUniqueCommandHandlerID st c2 now2).2
     ↔ wrap_int64 (now1 - st) = wrap_int64 (now2 - st)
       ∧ (GenerateUniqueCommandHandlerID st c1 now1).1
         = (GenerateUniqueCommandHandlerID st c2 now2).1).
Proof.
  unfold GenerateUniqueIOThreadID, GenerateUniqueCommandHandlerID, GenerateUniqueID.
  simpl. split_and!.
  - intros H. by injection H.
  - split.
    + intros H. apply identity_inj in H; [done|apply wrap_uint64_range..].
    + by intros [-> ->].
  - split.
    + intros H. apply identity_inj in H; [done|apply wrap_uint64_range..].
    + by intros [-> ->].
Qed.

End identity_format.

Section run_properties.

(** X6: in every execution of Run the wait group's counter is the number of
    goroutines that were added to it and have not called Done yet; it is
    never negative, and a goroutine about to call Done finds it positive,
    so no Done panics. *)
Theorem wait_group_never_negative
    (s0 : State) (tr : list label) (s : State) :
  fresh s0 → exec tr s0 = Some s →
  wg s = total holds_wg (pool s) ∧ 0 ≤ wg s
  ∧ ∀ i g, pool s !! i = Some g → holds_wg g = 1 → 1 ≤ wg s.
Proof.
  intros Hf Hex. destruct (exec_counting _ _ _ Hf Hex) as (Hwg&_).
  split; [done|]. rewrite Hwg. split; [apply total_nonneg, holds_wg_nonneg|].
  intros i g Hi Hg.
  pose proof (total_insert holds_wg _ i g (GWatchManager WatchDone) Hi) as Hins.
  pose proof (total_nonneg holds_wg (<[i := GWatchManager WatchDone]> (pool s))
                holds_wg_nonneg).
  simpl in Hins. lia.
Qed.

Lemma wait_group_never_negative_witness :
  ∃ s, exec (take 9 trace_served) (demo_state None ∅ ∅) = Some s
  ∧ wg s = total holds_wg (pool s) ∧ 0 ≤ wg s
  ∧ ∀ i g, pool s !! i = Some g → holds_wg g = 1 → 1 ≤ wg s.
Proof.
  eexists. split; [vm_compute; reflexivity|].
  apply (wait_group_never_negative (demo_state None ∅ ∅) (take 9 trace_served)).
  - by repeat split.
  - vm_compute; reflexivity.
Defined.

Lemma step_errChan_length l s s' :
  (length (errChan s) ≤ 1)%nat → step l s = Some s' → (length (errChan s') ≤ 1)%nat.
Proof.
  intros Hlen Hstep.
  destruct (step_cases _ _ _ Hstep) as
    [[-> ->]|[(_&_&Hr)|(i&o&g&g'&s1&new&->&Hi&Hgo&->)]]; [done|..].
  - clear Hstep. run_inv Hr; simpl in *; try done. lia.
  - simpl. clear Hstep. go_inv Hgo; simpl in *; try done; lia.
Qed.

(** X7: in every execution of Run the error channel holds at most one
    value, which is its capacity, and the send of line 103 never blocks:
    whenever the accept goroutine stands at the send the channel is empty
    and the send goes through. *)
Theorem error_channel_send_never_blocks
    (s0 : State) (tr : list label) (s : State) :
  fresh s0 → exec tr s0 = Some s →
  (length (errChan s) ≤ 1)%nat
  ∧ ∀ i e, pool s !! i = Some (GAccept (AccReturned e)) →
      errChan s = []
      ∧ step (LGo i OStep) s
        = Some (set_errChan [Errorf "failed to accept connections" e]
                  (set_pool (<[i := GAccept (AccExit e)]> (pool s)) s)).
Proof.
  intros Hf Hex. split.
  - apply (exec_invariant (λ x, (length (errChan x) ≤ 1)%nat)) with tr s0;
      [apply step_errChan_length| |done].
    destruct Hf as (_&_&_&->&_). simpl. lia.
  - intros i e Hi. destruct (exec_unsent _ _ _ Hf Hex) as [_ [Hemp|Hall]].
    + split; [done|]. unfold step. rewrite Hi. simpl. rewrite Hemp. simpl.
      rewrite app_nil_r. by destruct s.
    + by pose proof (Forall_lookup_1 _ _ _ _ Hall Hi).
Qed.

Lemma error_channel_send_never_blocks_witness :
  ∃ s, exec (take 4 trace_fatal_accept) (demo_state None ∅ ∅) = Some s
  ∧ (length (errChan s) ≤ 1)%nat
  ∧ ∀ i e, pool s !! i = Some (GAccept (AccReturned e)) →
      errChan s = []
      ∧ step (LGo i OStep) s
        = Some (set_errChan [Errorf "failed to accept connections" e]
                  (set_pool (<[i := GAccept (AccExit e)]> (pool s)) s)).
Proof.
  eexists. split; [vm_compute; reflexivity|].
  apply (error_channel_send_never_blocks
           (demo_state None ∅ ∅) (take 4 trace_fatal_accept)).
  - by repeat split.
  - vm_compute; reflexivity.
Defined.

Lemma count_events_cons f e lg :
  count_events f (e :: lg) = (if f e then 1 else 0) + count_events f lg.
Proof.
  unfold count_events. rewrite filter_cons. destruct (f e); case_decide; simpl; try done.
  lia.
Qed.

Lemma BindAndListen_count f o sv lg :
  (∀ e, is_bind_path_call e = true → f e = false) →
  count_events f (BindAndListen o sv lg).1.2 = count_events f lg.
Proof.
  intros Hf. unfold BindAndListen, BindAndListen_body.
  repeat (case_match; simplify_eq/=); rewrite ?count_events_cons, ?Hf by done; lia.
Qed.




Lemma accepted_stays_open fd lg x :
  closes fd lg = 0%nat → SysAccept x (inl fd) ∈ lg → fd_open fd lg = true.
Proof.
  induction lg as [|e lg IH]; [set_solver|]. rewrite closes_cons.
  intros Hc Hin.
  assert (closes fd lg = 0%nat) as Hc' by lia.
  destruct e as [[]| | | | | |? []| | | | | | | |]; simpl in *;
    try (apply IH; [done|set_solver]).
  - case_decide; [done|]. apply IH; [done|set_solver].
  - case_bool_decide; [lia|]. rewrite decide_False by done.
    apply IH; [done|set_solver].
  - case_decide; [done|]. apply IH; [done|]. set_solver.
Qed.

(** X9: server.go never closes a client's descriptor: in every execution
    of Run past the bind, no close has been issued on any descriptor but
    the listening one, and every descriptor accept returned is still open
    as far as this file goes. *)
Theorem client_descriptors_are_never_closed
    (s0 : State) (tr : list label) (s : State) (fd : Z) :
  fresh s0 → exec tr s0 = Some s → bound (run s) = true → fd ≠ serverFD (srv s) →
  closes fd (log s) = 0%nat
  ∧ ∀ x, SysAccept x (inl fd) ∈ log s → fd_open fd (log s) = true.
Proof.
  intros Hf Hex Hb Hfd. pose proof (exec_released _ _ _ Hf Hex) as Hrel.
  assert (closes fd (log s) = 0%nat) as Hc.
  { unfold released in Hrel. destruct (run s); try done;
      destruct Hrel as [_ Hcl]; try done. destruct Hcl as [_ Hcl]. by apply Hcl. }
  split; [done|]. intros x. by apply accepted_stays_open.
Qed.

Lemma client_descriptors_are_never_closed_witness :
  ∃ s, exec trace_served (demo_state None ∅ ∅) = Some s
  ∧ closes 4 (log s) = 0%nat
  ∧ ∀ x, SysAccept x (inl 4) ∈ log s → fd_open 4 (log s) = true.
Proof.
  eexists. split; [vm_compute; reflexivity|].
  apply (client_descriptors_are_never_closed (demo_state None ∅ ∅) trace_served).
  - by repeat split.
  - vm_compute; reflexivity.
  - reflexivity.
  - vm_compute. discriminate.
Defined.



Lemma step_fields s0 l s s' :
  (if bound (run s) then srv s = set_serverFD (serverFD (srv s)) (srv s0)
   else srv s = srv s0) →
  step l s = Some s' →
  if bound (run s') then srv s' = set_serverFD (serverFD (srv s')) (srv s0)
  else srv s' = srv s0.
Proof.
  intros Hinv Hstep.
  destruct (step_cases _ _ _ Hstep) as
    [[-> ->]|[(_&_&Hr)|(i&o&g&g'&s1&new&->&Hi&Hgo&->)]]; [done|..].
  - clear Hstep. run_inv Hr; simpl in *;
      repeat match goal with H : run _ = _ |- _ => rewrite H in Hinv end;
      simpl in *; try done.
    by rewrite Hinv.
  - destruct (go_step_frame _ _ _ _ _ _ Hgo) as (Hsrv&_&Hr&_). simpl.
    by rewrite Hr, Hsrv.
Qed.

(** X11: Run changes no field of the server but serverFD, and serverFD only
    by a successful bind: before it, and after a failed one, the server is
    as it was when Run was called; afterwards it differs from that in
    serverFD alone. *)
Theorem Run_changes_serverFD_only (s0 : State) (tr : list label) (s : State) :
  fresh s0 → exec tr s0 = Some s →
  if bound (run s) then srv s = set_serverFD (serverFD (srv s)) (srv s0)
  else srv s = srv s0.
Proof.
  intros Hf.
  apply (exec_invariant
           (λ x, if bound (run x)
                 then srv x = set_serverFD (serverFD (srv x)) (srv s0)
                 else srv x = srv s0)); [apply step_fields|].
  destruct Hf as (->&_). done.
Qed.

Lemma Run_changes_serverFD_only_witness :
  ∃ s, exec trace_served (demo_state None ∅ ∅) = Some s
  ∧ if bound (run s)
    then srv s = set_serverFD (serverFD (srv s)) (srv (demo_state None ∅ ∅))
    else srv s = srv (demo_state None ∅ ∅).
Proof.
  eexists. split; [vm_compute; reflexivity|].
  apply (Run_changes_serverFD_only (demo_state None ∅ ∅) trace_served).
  - by repeat split.
  - vm_compute; reflexivity.
Defined.

End run_properties.

Section worker_accounting.

Lemma started_mono (lg lg' : list event) g : lg ⊆ lg' → started lg g → started lg' g.
Proof. intros Hsub. destruct g; simpl; set_solver. Qed.

Lemma BindAndListen_unregisters_own o sv lg :
  lg ⊆ (BindAndListen o sv lg).1.2
  ∧ (unregisters_own lg → unregisters_own (BindAndListen o sv lg).1.2)
  ∧ (pairs_share_sequence lg → pairs_share_sequence (BindAndListen o sv lg).1.2).
Proof.
  unfold BindAndListen, BindAndListen_body.
  repeat (case_match; simplify_eq/=); split_and!; (set_solver || done).
Qed.

Lemma go_step_accounting o g s g' s' new :
  go_step o g s = Some (g', s', new) →
  started (log s) g → unregisters_own (log s) →
  log s ⊆ log s'
  ∧ count_events is_go_io (log s') - count_events is_unregister_io (log s')
    - live_io g' - total live_io new
    = count_events is_go_io (log s) - count_events is_unregister_io (log s) - live_io g
  ∧ count_events is_go_cmd (log s') - count_events is_unregister_cmd (log s')
    - live_cmd g' - total live_cmd new
    = count_events is_go_cmd (log s) - count_events is_unregister_cmd (log s) - live_cmd g
  ∧ unregisters_own (log s')
  ∧ started (log s') g'
  ∧ Forall (started (log s')) new.
Proof.
  intros Hgo Hst Hown.
  go_inv Hgo; simpl in *; rewrite ?count_events_cons; simpl;
    split_and!; try (done || lia || set_solver).
  all: try by repeat first [apply Forall_nil_2 | apply Forall_cons_2; [set_solver|]].
  all: eauto.
Qed.

Lemma fresh_accounting s : fresh s → accounting s.
Proof.
  intros (_&Hp&_&_&Hl). unfold accounting. rewrite Hp, Hl. by split_and!.
Qed.

Lemma step_accounting l s s' : accounting s → step l s = Some s' → accounting s'.
Proof.
  intros (Hio&Hcmd&Hown&Hst) Hstep.
  destruct (step_cases _ _ _ Hstep) as
    [[-> ->]|[(_&_&Hr)|(i&o&g&g'&s1&new&->&Hi&Hgo&->)]]; [done|..].
  - clear Hstep. unfold accounting in *.
    unfold Run, Shutdown, ReleasePort in Hr.
    repeat (case_match || simplify_option_eq); simpl in *;
      rewrite ?count_events_cons, ?total_app; simpl; try done.
    1,2: match goal with H : BindAndListen ?o ?sv ?lg = (_, ?l, _) |- _ =>
           pose proof (BindAndListen_count is_go_io o sv lg) as Hc1;
           pose proof (BindAndListen_count is_unregister_io o sv lg) as Hc2;
           pose proof (BindAndListen_count is_go_cmd o sv lg) as Hc3;
           pose proof (BindAndListen_count is_unregister_cmd o sv lg) as Hc4;
           destruct (BindAndListen_unregisters_own o sv lg) as (Hsub&Hu&_);
           rewrite H in Hc1, Hc2, Hc3, Hc4, Hsub, Hu; simpl in * end;
         rewrite Hc1, Hc2, Hc3, Hc4 by (by intros []);
         (split_and!; [done|done|by apply Hu|]);
         (eapply Forall_impl; [done|]); intros g; by apply started_mono.
    all: split_and!; try (done || lia).
    all: rewrite ?Forall_app; try split;
      try by repeat first [apply Forall_nil_2 | apply Forall_cons_2].
    all: (eapply Forall_impl; [done|]); intros g; apply started_mono; set_solver.
  - destruct (go_step_frame _ _ _ _ _ _ Hgo) as (Hsrv&Hctx&Hr&Hp&_).
    pose proof (Forall_lookup_1 _ _ _ _ Hst Hi) as Hg.
    destruct (go_step_accounting _ _ _ _ _ _ Hgo Hg Hown)
      as (Hsub&Hio'&Hcmd'&Hown'&Hg'&Hnew).
    unfold accounting. simpl.
    rewrite !total_app, !(total_insert _ _ _ _ _ Hi). split_and!; try (done || lia).
    apply Forall_app. split; [|done]. apply Forall_insert; [|done].
    eapply Forall_impl; [done|]. intros g0. by apply started_mono.
Qed.

(** X12: every worker started by the accept loop unregisters exactly once,
    when it leaves: in every execution of Run the number of io-threads
    started is the number of io-thread unregistrations issued plus the
    number of io-thread goroutines that have not yet run their deferred
    unregistration (and likewise for command handlers), and every
    unregistration names the identity of a worker started before it. *)
Theorem each_worker_unregisters_once
    (s0 : State) (tr : list label) (s : State) :
  fresh s0 → exec tr s0 = Some s →
  count_events is_go_io (log s)
  = count_events is_unregister_io (log s) + total live_io (pool s)
  ∧ count_events is_go_cmd (log s)
    = count_events is_unregister_cmd (log s) + total live_cmd (pool s)
  ∧ unregisters_own (log s).
Proof.
  intros Hf Hex.
  assert (accounting s) as (?&?&?&_); [|done].
  apply (exec_invariant accounting) with tr s0;
    [apply step_accounting|by apply fresh_accounting|done].
Qed.

Lemma each_worker_unregisters_once_witness :
  ∃ s, exec trace_served (demo_state None ∅ ∅) = Some s
  ∧ count_events is_go_io (log s)
    = count_events is_unregister_io (log s) + total live_io (pool s)
  ∧ count_events is_go_cmd (log s)
    = count_events is_unregister_cmd (log s) + total live_cmd (pool s)
  ∧ unregisters_own (log s).
Proof.
  eexists. split; [vm_compute; reflexivity|].
  apply (each_worker_unregisters_once (demo_state None ∅ ∅) trace_served).
  - by repeat split.
  - vm_compute; reflexivity.
Defined.

End worker_accounting.

Section sequence_numbers.

Lemma go_step_lockstep o g s g' s' new :
  go_step o g s = Some (g', s', new) →
  ioThreadCounter s = cmdHandlerCounter s →
  pairs_share_sequence (log s) → wired_in_sequence g →
  ioThreadCounter s' = cmdHandlerCounter s'
  ∧ pairs_share_sequence (log s') ∧ wired_in_sequence g'
  ∧ Forall wired_in_sequence new.
Proof.
  intros Hgo Hc Hp Hw.
  go_inv Hgo; simpl in *; split_and!; try done.
  all: try by repeat first [apply Forall_nil_2 | apply Forall_cons_2].
  - by rewrite Hc.
  - eexists _, _, _. split; [done|]. by rewrite Hc.
Qed.

Lemma fresh_lockstep s :
  fresh s → ioThreadCounter s = cmdHandlerCounter s → lockstep s.
Proof.
  intros (_&Hp&_&_&Hl) Hc. unfold lockstep. rewrite Hp, Hl. by split_and!.
Qed.

Lemma step_lockstep l s s' : lockstep s → step l s = Some s' → lockstep s'.
Proof.
  intros (Hc&Hp&Hw) Hstep.
  destruct (step_cases _ _ _ Hstep) as
    [[-> ->]|[(_&_&Hr)|(i&o&g&g'&s1&new&->&Hi&Hgo&->)]]; [done|..].
  - clear Hstep. unfold lockstep in *.
    unfold Run, Shutdown, ReleasePort in Hr.
    repeat (case_match || simplify_option_eq); simpl in *; try done.
    1,2: match goal with H : BindAndListen ?o ?sv ?lg = (_, ?l, _) |- _ =>
           destruct (BindAndListen_unregisters_own o sv lg) as (_&_&Hu);
           rewrite H in Hu; simpl in * end; by split_and!; [|apply Hu|].
    all: split_and!; try done.
    all: apply Forall_app; split; [done|].
    all: by repeat first [apply Forall_nil_2 | apply Forall_cons_2].
  - destruct (go_step_frame _ _ _ _ _ _ Hgo) as (Hsrv&Hctx&Hr&Hpool&_).
    pose proof (Forall_lookup_1 _ _ _ _ Hw Hi) as Hg.
    destruct (go_step_lockstep _ _ _ _ _ _ Hgo Hc Hp Hg) as (Hc'&Hp'&Hg'&Hnew).
    unfold lockstep. simpl. split_and!; try done.
    apply Forall_app. split; [by apply Forall_insert|done].
Qed.

(** X13: the accept loop draws one identity of each category per accepted
    connection, so the two counters advance together: when they are equal
    at the call of Run (both are zero in a new process) they are equal
    throughout, and the two workers of every started pair carry identities
    with the same sequence number. *)
Theorem pair_shares_its_sequence_number
    (s0 : State) (tr : list label) (s : State) :
  fresh s0 → ioThreadCounter s0 = cmdHandlerCounter s0 → exec tr s0 = Some s →
  ioThreadCounter s = cmdHandlerCounter s ∧ pairs_share_sequence (log s).
Proof.
  intros Hf Hc Hex.
  assert (lockstep s) as (?&?&_); [|done].
  apply (exec_invariant lockstep) with tr s0;
    [apply step_lockstep|by apply fresh_lockstep|done].
Qed.

Lemma pair_shares_its_sequence_number_witness :
  ∃ s, exec trace_served (demo_state None ∅ ∅) = Some s
  ∧ ioThreadCounter s = cmdHandlerCounter s ∧ pairs_share_sequence (log s).
Proof.
  eexists. split; [vm_compute; reflexivity|].
  apply (pair_shares_its_sequence_number (demo_state None ∅ ∅) trace_served).
  - by repeat split.
  - reflexivity.
  - vm_compute; reflexivity.
Defined.

End sequence_numbers.

Section after_return.

Lemma go_step_idle_accepts o g s g' s' new :
  go_step o g s = Some (g', s', new) → holds_wg g = 0 →
  count_events is_accept_call (log s') = count_events is_accept_call (log s).
Proof.
  intros Hgo Hg. go_inv Hgo; simpl in *; rewrite ?count_events_cons; simpl; done.
Qed.

Lemma step_after_return r n c l s s' :
  (run s = RunReturned r ∧ Forall (λ g, holds_wg g = 0) (pool s)
   ∧ length (pool s) = n ∧ count_events is_accept_call (log s) = c) →
  step l s = Some s' →
  run s' = RunReturned r ∧ Forall (λ g, holds_wg g = 0) (pool s')
  ∧ length (pool s') = n ∧ count_events is_accept_call (log s') = c.
Proof.
  intros (Hr&Hall&Hn&Hc) Hstep.
  destruct (step_cases _ _ _ Hstep) as
    [[-> ->]|[(_&_&Hrun)|(i&o&g&g'&s1&new&->&Hi&Hgo&->)]]; [done|..].
  - unfold Run in Hrun. rewrite Hr in Hrun. by destruct l.
  - destruct (go_step_frame _ _ _ _ _ _ Hgo) as (_&_&Hr'&_).
    pose proof (Forall_lookup_1 _ _ _ _ Hall Hi) as Hg. simpl in Hg.
    destruct (go_step_idle _ _ _ _ _ _ Hgo Hg) as [Hg' ->].
    simpl. rewrite app_nil_r, length_insert, Hr'. split_and!; try done.
    + by apply Forall_insert.
    + by rewrite (go_step_idle_accepts _ _ _ _ _ _ Hgo Hg).
Qed.

(** X14: Run returns only after the goroutine of the accept loop has ended
    and every started worker has called wg.Done, and its return is final:
    whatever the remaining workers do afterwards, no accept call is issued
    and no goroutine is started any more. *)
Theorem nothing_is_accepted_after_Run_returns
    (s0 : State) (tr : list label) (s : State) (r : option error)
    (tr' : list label) (s' : State) :
  fresh s0 → exec tr s0 = Some s → run s = RunReturned r → exec tr' s = Some s' →
  (∀ i pc, pool s !! i = Some (GAccept pc) → ∃ e, pc = AccDone e)
  ∧ Forall (λ g, holds_wg g = 0) (pool s)
  ∧ run s' = RunReturned r
  ∧ length (pool s') = length (pool s)
  ∧ count_events is_accept_call (log s') = count_events is_accept_call (log s).
Proof.
  intros Hf Hex Hr Hex'.
  destruct (exec_counting _ _ _ Hf Hex) as (Hwg&_&_&Hpw).
  rewrite Hr in Hpw. specialize (Hpw eq_refl). rewrite Hwg in Hpw.
  apply total_zero in Hpw; [|apply holds_wg_nonneg].
  split.
  { intros i pc Hi. pose proof (Forall_lookup_1 _ _ _ _ Hpw Hi) as Hg.
    destruct pc; simpl in Hg; try lia. eauto. }
  split; [done|].
  assert (run s' = RunReturned r ∧ Forall (λ g, holds_wg g = 0) (pool s')
          ∧ length (pool s') = length (pool s)
          ∧ count_events is_accept_call (log s')
            = count_events is_accept_call (log s)) as (?&_&?&?); [|done].
  apply (exec_invariant
           (λ x, run x = RunReturned r ∧ Forall (λ g, holds_wg g = 0) (pool x)
                 ∧ length (pool x) = length (pool s)
                 ∧ count_events is_accept_call (log x)
                   = count_events is_accept_call (log s))) with tr' s;
    [|done|done].
  intros l x y Hx Hs. by eapply step_after_return.
Qed.

Lemma nothing_is_accepted_after_Run_returns_witness :
  ∃ s s', exec trace_orphans (demo_state None ∅ ∅) = Some s
  ∧ exec [LGo 1 (OStart None); LGo 1 OStep; LGo 2 (OStart None); LGo 2 OStep] s
    = Some s'
  ∧ (∀ i pc, pool s !! i = Some (GAccept pc) → ∃ e, pc = AccDone e)
  ∧ Forall (λ g, holds_wg g = 0) (pool s)
  ∧ run s' = RunReturned None
  ∧ length (pool s') = length (pool s)
  ∧ count_events is_accept_call (log s') = count_events is_accept_call (log s).
Proof.
  eexists. eexists. split; [vm_compute; reflexivity|].
  split; [vm_compute; reflexivity|].
  apply (nothing_is_accepted_after_Run_returns (demo_state None ∅ ∅) trace_orphans _ None
           [LGo 1 (OStart None); LGo 1 OStep; LGo 2 (OStart None); LGo 2 OStep]).
  - by repeat split.
  - vm_compute; reflexivity.
  - reflexivity.
  - vm_compute; reflexivity.
Defined.

End after_return.
